(** * Motzkin paths with a minimum width: counter and enumerator

    A shallow embedding of [motzkin.py]:

    - [motzkinlengthk] counts the Motzkin paths of a given length and
      minimum width, memoising in a dictionary that is the function's
      mutable default argument (one dictionary for the whole process,
      keyed by the length alone);
    - [motzkin_sequences] is the generator of those paths, as strings over
      [.], [(] and [)].

    Python integers are [Z], the dictionary is a [gmap Z Z] threaded
    through the calls, strings are [string].  Both functions recurse on
    [length - 1] with no lower bound, so the recursion is driven by a
    [fuel] that bounds the depth of the recursion: [None] is Python's
    [RecursionError].  For the counter one unit of fuel is one nested call,
    that is one frame of the interpreter's stack.  For the generator one
    unit is one level of nested generators, which takes two frames (the
    generator's own and that of the generator expression over it); its
    theorems only ask for enough fuel and fix no depth.  The generator is
    modelled by the list of the strings it yields when it is consumed to
    the end; where the objects themselves matter, a generator object is a
    suspended frame in a heap and [next] resumes it. *)

From Stdlib Require Import Ascii.
From Stdlib Require String.
From stdpp Require Import gmap strings list list_numbers fin_maps.

Local Open Scope Z_scope.

(** ** Python's [range] *)

(** [range(lo, hi)]: the integers [lo], [lo + 1], ..., [hi - 1]; empty
    when [hi <= lo]. *)
Definition range (lo hi : Z) : list Z := seqZ lo (hi - lo).

(** ** The counter *)

(** The default argument [memoize={0: 1}] as it is when the module is
    loaded. *)
Definition memoize0 : gmap Z Z := {[ 0 := 1 ]}.

(** The body of the [for] loop of [motzkinlengthk], over the values of
    [length_inside_first_set] still to visit; [rec] is the recursive call
    (at the enclosing [width]), [sequencecount] the accumulator. *)
Definition count_loop (rec : Z → gmap Z Z → option (Z * gmap Z Z)) (length : Z)
  : list Z → Z → gmap Z Z → option (Z * gmap Z Z) :=
  fix go inners sequencecount memoize :=
    match inners with
    | [] => Some (sequencecount, memoize)
    | length_inside_first_set :: rest =>
        '(stuff_in_first_set, memoize) ← rec length_inside_first_set memoize;
        '(stuff_after_first_set, memoize) ←
          rec (length - 2 - length_inside_first_set) memoize;
        go rest (sequencecount + stuff_in_first_set * stuff_after_first_set)
           memoize
    end.

(** [motzkinlengthk(length, width)], called with two arguments, so that
    [memoize] is the shared default dictionary: the function takes its
    current contents and returns the result with the new contents. *)
Fixpoint motzkinlengthk (fuel : nat) (length width : Z) (memoize : gmap Z Z)
  : option (Z * gmap Z Z) :=
  match fuel with
  | O => None
  | S fuel =>
      match memoize !! length with
      | Some cached => Some (cached, memoize)
      | None =>
          '(sequence1shorter, memoize) ←
            motzkinlengthk fuel (length - 1) width memoize;
          '(sequencecount, memoize) ←
            count_loop (λ l m, motzkinlengthk fuel l width m) length
                       (range width ((length - 2) + 1)) 0 memoize;
          let memoize := <[ length := sequence1shorter + sequencecount ]> memoize in
          result ← memoize !! length;
          Some (result, memoize)
      end
  end.

(** ** The enumerator *)

(** ['({inside}){after}'.format(inside=inside, after=after)] *)
Definition format_pair (inside after : string) : string :=
  "(" +:+ inside +:+ ")" +:+ after.

(** The two nested [for] loops over [stuff_inside_first_set] and
    [stuff_after_first_set]: [inside] is the outer loop. *)
Definition pair_block (stuff_inside_first_set stuff_after_first_set : list string)
  : list string :=
  inside ← stuff_inside_first_set;
  after ← stuff_after_first_set;
  [format_pair inside after].

(** The [for] loop of [motzkin_sequences] over [length_inside_first_set]:
    the strings it yields, in order. *)
Definition paren_loop (rec : Z → option (list string)) (length : Z)
  : list Z → option (list string) :=
  fix go inners :=
    match inners with
    | [] => Some []
    | length_inside_first_set :: rest =>
        let length_after_first_set := length - 2 - length_inside_first_set in
        stuff_inside_first_set ← rec length_inside_first_set;
        stuff_after_first_set ← rec length_after_first_set;
        later ← go rest;
        Some (pair_block stuff_inside_first_set stuff_after_first_set ++ later)
    end.

(** [motzkin_sequences(length, minwidth)], consumed to the end.  One unit
    of [fuel] is spent for each level of nested generators. *)
Fixpoint motzkin_sequences (fuel : nat) (length minwidth : Z)
  : option (list string) :=
  match fuel with
  | O => None
  | S fuel =>
      if decide (length = 0) then Some [""]
      else
        shorter ← motzkin_sequences fuel (length - 1) minwidth;
        let dot_before_prev_possibilities := (λ seq, "." +:+ seq) <$> shorter in
        paren_first ←
          paren_loop (λ l, motzkin_sequences fuel l minwidth) length
                     (range minwidth (length - 2 + 1));
        Some (dot_before_prev_possibilities ++ paren_first)
  end.

(** ** Results of the enumerator *)

(** The strings [motzkin_sequences(length, minwidth)] yields, read off a
    run with a call stack deep enough for [length] ([motzkin_sequences_paths]
    below shows that every such run yields them). *)
Definition paths (length minwidth : Z) : list string :=
  default [] (motzkin_sequences (S (Z.to_nat length)) length minwidth).

(** ['.' * n] *)
Definition all_dots (n : nat) : string := Nat.iter n (String "."%char) "".

(** ** The path invariants *)

(** A path is read as the sequence of its symbols. *)
Definition symbols (s : string) : list ascii := String.list_ascii_of_string s.

Definition occurrences (c : ascii) (l : list ascii) : nat :=
  List.length (filter (λ x, x = c) l).

Abbreviation opens := (occurrences "("%char).
Abbreviation closes := (occurrences ")"%char).

(** In every prefix there are at least as many [(] as [)]. *)
Definition prefix_balance (l : list ascii) : Prop :=
  ∀ p q, l = p ++ q → (closes p ≤ opens p)%nat.

(** Over the whole path there are as many [(] as [)]. *)
Definition total_balance (l : list ascii) : Prop := opens l = closes l.

(** A [(] and a later [)] are matched when what lies strictly between them
    is balanced; every matched pair encloses at least [minwidth] symbols. *)
Definition minimum_width (minwidth : Z) (l : list ascii) : Prop :=
  ∀ before inside after,
    l = before ++ "("%char :: inside ++ ")"%char :: after →
    prefix_balance inside → total_balance inside →
    minwidth ≤ Z.of_nat (List.length inside).

Definition valid_path (minwidth : Z) (s : string) : Prop :=
  prefix_balance (symbols s) ∧ total_balance (symbols s)
  ∧ minimum_width minwidth (symbols s).

(** ** Results and states of the counter *)

(** [Σ_{i ∈ l} f i] *)
Definition Zsum (f : Z → Z) (l : list Z) : Z := foldr Z.add 0 (f <$> l).

(** Every entry of the dictionary satisfies [P key value]. *)
Definition cache_sat (P : Z → Z → Prop) (memoize : gmap Z Z) : Prop :=
  ∀ k v, memoize !! k = Some v → P k v.

(** The terms the loop adds up, one for each inside length, each the
    product of two values that satisfy [P] at the two lengths. *)
Definition loop_terms (P : Z → Z → Prop) (len : Z) : list Z → list Z → Prop :=
  Forall2 (λ inner t, ∃ a b, P inner a ∧ P (len - 2 - inner) b ∧ t = a * b).

(** An entry with a non-negative key and a value of at least one. *)
Definition positive_entry (k v : Z) : Prop := 0 ≤ k ∧ 1 ≤ v.

(** An entry whose value is the number of strings the generator yields
    for its key at [width]. *)
Definition exact_entry (width k v : Z) : Prop :=
  0 ≤ k ∧ v = Z.of_nat (List.length (paths k width)).

(** The contents the shared dictionary can have in a process in which
    [motzkinlengthk] has only been called with widths in [allowed] (with
    any lengths, and only counting the calls that returned). *)
Inductive reachable (allowed : Z → Prop) : gmap Z Z → Prop :=
  | reachable_init : reachable allowed memoize0
  | reachable_call memoize fuel length width result memoize' :
      reachable allowed memoize →
      allowed width →
      motzkinlengthk fuel length width memoize = Some (result, memoize') →
      reachable allowed memoize'.

(** A process that has used one width only. *)
Definition single_width (width : Z) : gmap Z Z → Prop :=
  reachable (λ w, w = width).

(** A process that has used the counter in any way. *)
Definition any_width : gmap Z Z → Prop := reachable (λ _, True).

(** What [motzkinlengthk(length, width)] returns as the first call of a
    process ([motzkinlengthk_exact] below shows that it does return, and
    returns the same in every process that has used this width only). *)
Definition count (length width : Z) : Z :=
  default 0 (fst <$> motzkinlengthk (S (Z.to_nat length)) length width memoize0).

(** ** Generator objects *)

(** A call of [motzkin_sequences] does not run the body: it makes a
    generator object, which [next] resumes until its next [yield].  The
    objects of a process live in one heap, addressed by their identities.
    An object is its suspended frame: where the body stands and the local
    variables it still needs.
    - [Created]: the body has not started.
    - [AtEmpty]: suspended at [yield ''].
    - [AtDot]: suspended at [yield sequence] of the first loop; [child] is
      the object of [motzkin_sequences(length-1, minwidth)] that the
      generator expression draws from.
    - [AtPair]: suspended at [yield sequence] of the nested loops, with the
      values [range] has still to give ([inners]), the current [inside],
      the rest of [stuff_inside_first_set] ([insides]),
      [stuff_after_first_set] and the rest of its traversal ([afters]).
    - [Finished]: the body has returned; [next] raises [StopIteration].
    The objects that the two list comprehensions consume are made and
    exhausted within one resumption, with nothing else running in between:
    they are represented by the lists they give. *)
Inductive frame : Type :=
  | Created (length minwidth : Z)
  | AtEmpty
  | AtDot (length minwidth : Z) (child : nat)
  | AtPair (length minwidth : Z) (inners : list Z) (inside : string)
           (insides stuff_after_first_set afters : list string)
  | Finished.

(** [g = motzkin_sequences(length, minwidth)]: a new object, at an identity
    that is not in use. *)
Definition call (length minwidth : Z) (h : gmap nat frame)
  : nat * gmap nat frame :=
  let id := fresh (dom h) in (id, <[ id := Created length minwidth ]> h).

(** The two [for] loops over [stuff_inside_first_set] and
    [stuff_after_first_set], entered with the inside strings still to
    visit: the first string they yield and the frame suspended there, or
    [None] when they end without a yield. *)
Fixpoint next_inside (length minwidth : Z) (inners : list Z)
    (insides stuff_after_first_set : list string) : option (string * frame) :=
  match insides with
  | [] => None
  | inside :: insides =>
      match stuff_after_first_set with
      | after :: afters =>
          Some (format_pair inside after,
                AtPair length minwidth inners inside insides
                       stuff_after_first_set afters)
      | [] => next_inside length minwidth inners insides stuff_after_first_set
      end
  end.

(** The [for] loop over [length_inside_first_set], entered with the values
    [range] has still to give; the two list comprehensions consume their
    generators to the end ([rec]).  The outer [None] is [RecursionError],
    the inner one the end of the body. *)
Definition next_inner (rec : Z → option (list string)) (length minwidth : Z)
  : list Z → option (option (string * frame)) :=
  fix go inners :=
    match inners with
    | [] => Some None
    | length_inside_first_set :: inners =>
        stuff_inside_first_set ← rec length_inside_first_set;
        stuff_after_first_set ← rec (length - 2 - length_inside_first_set);
        match next_inside length minwidth inners
                stuff_inside_first_set stuff_after_first_set with
        | Some r => Some (Some r)
        | None => go inners
        end
    end.

(** Resuming at the [yield] of the nested loops. *)
Definition next_pair (rec : Z → option (list string)) (length minwidth : Z)
    (inners : list Z) (inside : string)
    (insides stuff_after_first_set afters : list string)
  : option (option (string * frame)) :=
  match afters with
  | after :: afters =>
      Some (Some (format_pair inside after,
                  AtPair length minwidth inners inside insides
                         stuff_after_first_set afters))
  | [] =>
      match next_inside length minwidth inners insides
              stuff_after_first_set with
      | Some r => Some (Some r)
      | None => next_inner rec length minwidth inners
      end
  end.

(** The object [id] suspends at a [yield], or finishes. *)
Definition suspend (id : nat) (h : gmap nat frame) (r : option (string * frame))
  : option string * gmap nat frame :=
  match r with
  | Some (sequence, fr) => (Some sequence, <[ id := fr ]> h)
  | None => (None, <[ id := Finished ]> h)
  end.

(** The first loop of the body of [id]: draw the next string from [child]
    and yield it behind a dot; when [child] is exhausted, go on to the loop
    over [length_inside_first_set]. *)
Definition first_loop
    (rec_next : nat → gmap nat frame → option (option string * gmap nat frame))
    (rec : Z → option (list string))
    (id : nat) (length minwidth : Z) (child : nat) (h : gmap nat frame)
  : option (option string * gmap nat frame) :=
  '(r, h) ← rec_next child h;
  match r with
  | Some seq =>
      Some (Some ("." +:+ seq), <[ id := AtDot length minwidth child ]> h)
  | None =>
      suspend id h <$>
        next_inner rec length minwidth (range minwidth (length - 2 + 1))
  end.

(** [next(g)] for the object at [id]: the string yielded ([None] for
    [StopIteration]) and the heap afterwards. *)
Fixpoint next (fuel : nat) (id : nat) (h : gmap nat frame)
  : option (option string * gmap nat frame) :=
  match fuel with
  | O => None
  | S fuel =>
      fr ← h !! id;
      match fr with
      | Created length minwidth =>
          if decide (length = 0) then Some (Some "", <[ id := AtEmpty ]> h)
          else
            let '(child, h) := call (length - 1) minwidth h in
            first_loop (next fuel) (λ l, motzkin_sequences fuel l minwidth)
                       id length minwidth child h
      | AtEmpty => Some (None, <[ id := Finished ]> h)
      | AtDot length minwidth child =>
          first_loop (next fuel) (λ l, motzkin_sequences fuel l minwidth)
                     id length minwidth child h
      | AtPair length minwidth inners inside insides
               stuff_after_first_set afters =>
          suspend id h <$>
            next_pair (λ l, motzkin_sequences fuel l minwidth) length minwidth
                      inners inside insides stuff_after_first_set afters
      | Finished => Some (None, h)
      end
  end.

(** Calls of [next] on two objects in an arbitrary interleaving ([true]
    resumes [a], [false] resumes [b]): the strings each has yielded, in
    order, and the heap afterwards. *)
Fixpoint interleave (fuel : nat) (schedule : list bool) (a b : nat)
    (h : gmap nat frame)
  : option (list string * list string * gmap nat frame) :=
  match schedule with
  | [] => Some ([], [], h)
  | turn :: schedule =>
      '(r, h) ← next fuel (if turn then a else b) h;
      '(ya, yb, h) ← interleave fuel schedule a b h;
      Some (if turn then (option_list r ++ ya, yb, h)
            else (ya, option_list r ++ yb, h))
  end.

(** The strings the loop over [length_inside_first_set] yields for the
    values in [inners]. *)
Definition inners_part (w len : Z) (inners : list Z) : list string :=
  i ← inners; pair_block (paths i w) (paths (len - 2 - i) w).

(** The strings a frame suspended in the nested loops has still to yield. *)
Definition pair_rest (w len : Z) (inners : list Z) (inside : string)
    (insides stuff_after_first_set afters : list string) : list string :=
  ((format_pair inside) <$> afters)
  ++ pair_block insides stuff_after_first_set ++ inners_part w len inners.

(** [owns w h id len fp rem]: in the heap [h], the object [id], made for
    [len] and the minimum width [w], has the strings [rem] still to yield,
    and its state lies in the cells [fp]: its own and those of the objects
    it draws from. *)
Inductive owns (w : Z) (h : gmap nat frame)
  : nat → Z → gset nat → list string → Prop :=
  | owns_created id len :
      h !! id = Some (Created len w) → 0 ≤ len →
      owns w h id len {[ id ]} (paths len w)
  | owns_empty id :
      h !! id = Some AtEmpty → owns w h id 0 {[ id ]} []
  | owns_dot id len child fp rem :
      h !! id = Some (AtDot len w child) → 1 ≤ len → id ∉ fp →
      owns w h child (len - 1) fp rem →
      owns w h id len ({[ id ]} ∪ fp)
           (((λ seq, "." +:+ seq) <$> rem)
            ++ inners_part w len (range w (len - 1)))
  | owns_pair id len inners inside insides stuff_after_first_set afters :
      h !! id = Some (AtPair len w inners inside insides
                             stuff_after_first_set afters) →
      (∀ i, i ∈ inners → 0 ≤ i ≤ len - 2) →
      owns w h id len {[ id ]}
           (pair_rest w len inners inside insides stuff_after_first_set afters)
  | owns_finished id len :
      h !! id = Some Finished → owns w h id len {[ id ]} [].

(** What a loop hands back, against the strings [rem] it had to yield: no
    string when [rem] is empty, otherwise the first of [rem] and a frame
    that has the others still to yield. *)
Definition loop_result (w len : Z) (inners0 : list Z)
    (r : option (string * frame)) (rem : list string) : Prop :=
  match r with
  | None => rem = []
  | Some (s, fr) =>
      ∃ inners inside insides stuff_after_first_set afters,
        fr = AtPair len w inners inside insides stuff_after_first_set afters
        ∧ (∀ i, i ∈ inners → i ∈ inners0)
        ∧ rem = s :: pair_rest w len inners inside insides
                               stuff_after_first_set afters
  end.

(** The arguments on which the operations fail. *)
Definition fails_on (length minwidth : Z) : Prop :=
  length < 0 ∨ (minwidth < 0 ∧ length ≠ 0).

(** ** More on paths and on the dictionary *)

(** The three symbols a path is made of. *)
Definition path_symbol (c : ascii) : Prop :=
  c = "."%char ∨ c = "("%char ∨ c = ")"%char.

(** The keys of the dictionary are exactly the lengths [0], ..., [top]. *)
Definition keys_upto (top : Z) (memoize : gmap Z Z) : Prop :=
  ∀ k, is_Some (memoize !! k) ↔ 0 ≤ k ≤ top.

(** [motzkinlengthk(length, width, memoize)], called with a dictionary of
    the caller's own as third argument: the lookup and the store use that
    dictionary, while the recursive calls, written with two arguments, run
    on the shared default one. *)
Definition motzkinlengthk_with (fuel : nat) (length width : Z)
    (memoize shared : gmap Z Z) : option (Z * gmap Z Z * gmap Z Z) :=
  match fuel with
  | O => None
  | S fuel =>
      match memoize !! length with
      | Some cached => Some (cached, memoize, shared)
      | None =>
          '(sequence1shorter, shared) ←
            motzkinlengthk fuel (length - 1) width shared;
          '(sequencecount, shared) ←
            count_loop (λ l m, motzkinlengthk fuel l width m) length
                       (range width ((length - 2) + 1)) 0 shared;
          let memoize := <[ length := sequence1shorter + sequencecount ]> memoize in
          result ← memoize !! length;
          Some (result, memoize, shared)
      end
  end.

Example count_8_3 : fst <$> motzkinlengthk 9 8 3 memoize0 = Some 16.
Proof. vm_compute. reflexivity. Qed.

Example enum_5_3 : motzkin_sequences 6 5 3 = Some ["....."; "(...)"].
Proof. vm_compute. reflexivity. Qed.

(** * The enumerator terminates and its result does not depend on the fuel *)

Lemma range_elem lo hi k : k ∈ range lo hi ↔ lo ≤ k < hi.
Proof. unfold range. rewrite elem_of_seqZ. lia. Qed.

Lemma range_nil lo hi : hi ≤ lo → range lo hi = [].
Proof. intros. unfold range. apply seqZ_nil. lia. Qed.

Lemma range_cons lo hi : lo < hi → range lo hi = lo :: range (lo + 1) hi.
Proof.
  intros. unfold range. rewrite seqZ_cons by lia.
  f_equal. f_equal; lia.
Qed.

Lemma paren_loop_mono rec1 rec2 len inners out :
  (∀ l r, rec1 l = Some r → rec2 l = Some r) →
  paren_loop rec1 len inners = Some out →
  paren_loop rec2 len inners = Some out.
Proof.
  intros Hrec. revert out.
  induction inners as [|i inners IH]; intros out; simpl; [done|].
  destruct (rec1 i) as [ins|] eqn:Hi; simpl; [|done].
  destruct (rec1 (len - 2 - i)) as [afts|] eqn:Ha; simpl; [|done].
  destruct (paren_loop rec1 len inners) as [later|] eqn:Hl; simpl; [|done].
  intros [= <-].
  rewrite (Hrec _ _ Hi), (Hrec _ _ Ha). simpl.
  rewrite (IH later eq_refl). done.
Qed.

Lemma motzkin_sequences_S fuel len w out :
  motzkin_sequences fuel len w = Some out →
  motzkin_sequences (S fuel) len w = Some out.
Proof.
  revert len out. induction fuel as [|fuel IH]; intros len out; [done|].
  intros H. simpl in H. change (motzkin_sequences (S (S fuel)) len w) with
    (if decide (len = 0) then Some [""]
     else
       shorter ← motzkin_sequences (S fuel) (len - 1) w;
       paren_first ← paren_loop (λ l, motzkin_sequences (S fuel) l w) len
                                (range w (len - 2 + 1));
       Some (((λ seq, "." +:+ seq) <$> shorter) ++ paren_first)).
  destruct (decide (len = 0)); [done|].
  destruct (motzkin_sequences fuel (len - 1) w) as [d|] eqn:Hd; [|done].
  simpl in H.
  destruct (paren_loop _ len _) as [p|] eqn:Hp in H; [|done].
  simpl in H. injection H as <-.
  rewrite (IH _ _ Hd).
  rewrite (paren_loop_mono _ (λ l, motzkin_sequences (S fuel) l w) _ _ _
             (λ l r, IH l r) Hp).
  done.
Qed.

Lemma motzkin_sequences_mono fuel fuel' len w out :
  (fuel ≤ fuel')%nat →
  motzkin_sequences fuel len w = Some out →
  motzkin_sequences fuel' len w = Some out.
Proof.
  induction 1 as [|fuel' _ IH]; [done|].
  intros H. apply motzkin_sequences_S, IH, H.
Qed.

Lemma paren_loop_total rec len inners :
  (∀ i, i ∈ inners → is_Some (rec i) ∧ is_Some (rec (len - 2 - i))) →
  is_Some (paren_loop rec len inners).
Proof.
  induction inners as [|i inners IH]; intros H; simpl; [by eexists|].
  destruct (H i) as [[ins ->] [afts ->]]; [by left|]. simpl.
  destruct IH as [later ->]; [|by eexists].
  intros j Hj. apply H. by right.
Qed.

Lemma motzkin_sequences_total fuel len w :
  0 ≤ w → 0 ≤ len → (Z.to_nat len < fuel)%nat →
  is_Some (motzkin_sequences fuel len w).
Proof.
  intros Hw. revert len.
  induction fuel as [|fuel IH]; intros len Hlen Hfuel; [lia|].
  simpl. destruct (decide (len = 0)); [by eexists|].
  destruct (IH (len - 1)) as [d ->]; [lia..|]. simpl.
  destruct (paren_loop_total (λ l, motzkin_sequences fuel l w) len
              (range w (len - 2 + 1))) as [p ->]; [|by eexists].
  intros i [??]%range_elem. split; apply IH; lia.
Qed.

(** Every run with enough stack yields [paths length minwidth]. *)
Lemma motzkin_sequences_paths fuel len w :
  0 ≤ w → 0 ≤ len → (Z.to_nat len < fuel)%nat →
  motzkin_sequences fuel len w = Some (paths len w).
Proof.
  intros Hw Hlen Hfuel.
  destruct (motzkin_sequences_total (S (Z.to_nat len)) len w) as [out Hout];
    [lia..|].
  unfold paths. rewrite Hout. simpl.
  apply (motzkin_sequences_mono (S (Z.to_nat len))); [lia|done].
Qed.

Lemma paths_0 w : paths 0 w = [""].
Proof. reflexivity. Qed.

Lemma paren_loop_paths rec len (f : Z → list string) inners :
  (∀ i, i ∈ inners → rec i = Some (f i) ∧ rec (len - 2 - i) = Some (f (len - 2 - i))) →
  paren_loop rec len inners
  = Some (i ← inners; pair_block (f i) (f (len - 2 - i))).
Proof.
  induction inners as [|i inners IH]; intros H; simpl; [done|].
  destruct (H i) as [-> ->]; [by left|]. simpl.
  rewrite IH; [done|].
  intros j Hj. apply H. by right.
Qed.

(** The unfolding of the generator's body on its results. *)
Lemma paths_step len w :
  0 ≤ w → 1 ≤ len →
  paths len w
  = ((λ seq, "." +:+ seq) <$> paths (len - 1) w)
    ++ (inner ← range w (len - 1);
        pair_block (paths inner w) (paths (len - 2 - inner) w)).
Proof.
  intros Hw Hlen.
  assert (Some (paths len w) = Some
    (((λ seq, "." +:+ seq) <$> paths (len - 1) w)
    ++ (inner ← range w (len - 1);
        pair_block (paths inner w) (paths (len - 2 - inner) w)))) as [= ->];
    [|done].
  rewrite <- (motzkin_sequences_paths (S (Z.to_nat len))) by lia.
  simpl. destruct (decide (len = 0)); [lia|].
  rewrite (motzkin_sequences_paths _ (len - 1)) by lia. simpl.
  replace (len - 2 + 1) with (len - 1) by lia.
  rewrite (paren_loop_paths _ len (λ l, paths l w)); [done|].
  intros i [??]%range_elem.
  split; apply motzkin_sequences_paths; lia.
Qed.

(** * Symbols of the strings the generator builds *)

Lemma symbols_app s1 s2 : symbols (s1 +:+ s2) = symbols s1 ++ symbols s2.
Proof. induction s1 as [|c s1 IH]; simpl; [done|]. by rewrite <- IH. Qed.

Lemma symbols_inj s1 s2 : symbols s1 = symbols s2 → s1 = s2.
Proof.
  intros H. rewrite <- (String.string_of_list_ascii_of_string s1),
    <- (String.string_of_list_ascii_of_string s2).
  unfold symbols in H. by rewrite H.
Qed.

Lemma symbols_length s : List.length (symbols s) = String.length s.
Proof. induction s as [|c s IH]; simpl; [done|]. by rewrite <- IH. Qed.

Lemma symbols_dot s : symbols ("." +:+ s) = "."%char :: symbols s.
Proof. reflexivity. Qed.

Lemma symbols_format_pair a b :
  symbols (format_pair a b) = "("%char :: symbols a ++ ")"%char :: symbols b.
Proof. unfold format_pair. by rewrite !symbols_app. Qed.

(** * Counting marks *)

Lemma occurrences_nil c : occurrences c [] = 0%nat.
Proof. reflexivity. Qed.

Lemma occurrences_cons c x l :
  occurrences c (x :: l)
  = ((if decide (x = c) then 1 else 0) + occurrences c l)%nat.
Proof. unfold occurrences. rewrite filter_cons. by case_decide. Qed.

Lemma occurrences_app c l1 l2 :
  occurrences c (l1 ++ l2) = (occurrences c l1 + occurrences c l2)%nat.
Proof. unfold occurrences. by rewrite filter_app, length_app. Qed.

Lemma opens_open l : opens ("("%char :: l) = S (opens l).
Proof. by rewrite occurrences_cons. Qed.
Lemma opens_close l : opens (")"%char :: l) = opens l.
Proof. by rewrite occurrences_cons. Qed.
Lemma opens_dot l : opens ("."%char :: l) = opens l.
Proof. by rewrite occurrences_cons. Qed.
Lemma closes_open l : closes ("("%char :: l) = closes l.
Proof. by rewrite occurrences_cons. Qed.
Lemma closes_close l : closes (")"%char :: l) = S (closes l).
Proof. by rewrite occurrences_cons. Qed.
Lemma closes_dot l : closes ("."%char :: l) = closes l.
Proof. by rewrite occurrences_cons. Qed.

Create Rewrite HintDb marks.
#[local] Hint Rewrite occurrences_nil occurrences_app opens_open opens_close
  opens_dot closes_open closes_close closes_dot : marks.

Ltac marks := autorewrite with marks in *; simpl in *; try lia.

(** Two ways of cutting one list at a distinguished element. *)
Lemma app_cons_eq_inv {A} (x x' : list A) c c' y y' :
  x ++ c :: y = x' ++ c' :: y' →
  (x = x' ∧ c = c' ∧ y = y')
  ∨ (∃ z, x' = x ++ c :: z ∧ y = z ++ c' :: y')
  ∨ (∃ z, x = x' ++ c' :: z ∧ y' = z ++ c :: y).
Proof.
  revert x'. induction x as [|a x IH]; intros [|a' x'] H; simpl in H.
  - injection H as -> ->. by left.
  - injection H as -> ->. right; left. by exists x'.
  - injection H as -> <-. right; right. by exists x.
  - injection H as -> H.
    destruct (IH _ H) as [(-> & -> & ->)|[(z & -> & ->)|(z & -> & ->)]].
    + by left.
    + right; left. by exists z.
    + right; right. by exists z.
Qed.

(** * The invariants are preserved by the two ways of building a path *)

Lemma prefix_balance_nil : prefix_balance [].
Proof. intros p q H. symmetry in H. apply app_eq_nil in H as [-> _]. marks. Qed.

Lemma prefix_balance_dot l : prefix_balance l → prefix_balance ("."%char :: l).
Proof.
  intros Hl [|c p] q H; [marks|].
  injection H as <- ->. specialize (Hl p q eq_refl). marks.
Qed.

Lemma prefix_balance_pair a b :
  prefix_balance a → total_balance a → prefix_balance b →
  prefix_balance ("("%char :: a ++ ")"%char :: b).
Proof.
  unfold total_balance. intros Ha Hta Hb [|c p] q H; [marks|].
  injection H as <- H.
  apply app_eq_inv in H as [(k & -> & ->)|(k & -> & Hk)].
  - specialize (Ha p k eq_refl). marks.
  - specialize (Ha a [] (eq_sym (app_nil_r a))).
    destruct k as [|c k].
    + rewrite app_nil_r. marks.
    + injection Hk as <- ->. specialize (Hb k q eq_refl). marks.
Qed.

Lemma total_balance_pair a b :
  total_balance a → total_balance b →
  total_balance ("("%char :: a ++ ")"%char :: b).
Proof. unfold total_balance. intros. marks. Qed.

(** A balanced [a] cannot continue with a [)]: the closing mark that
    follows a balanced inside is found at one place only. *)
Lemma balanced_no_close a z :
  total_balance a → ¬ prefix_balance (a ++ ")"%char :: z).
Proof.
  unfold total_balance. intros Ha H.
  specialize (H (a ++ [")"%char]) z). rewrite <- app_assoc in H.
  specialize (H eq_refl). marks.
Qed.

Lemma minimum_width_nil w : minimum_width w [].
Proof. intros [|c pre] mid post H; discriminate H. Qed.

Lemma minimum_width_dot w l :
  minimum_width w l → minimum_width w ("."%char :: l).
Proof.
  intros Hl [|c pre] mid post H; [discriminate H|].
  injection H as <- H. by apply (Hl pre mid post).
Qed.

Lemma minimum_width_pair w a b :
  prefix_balance a → total_balance a → w ≤ Z.of_nat (List.length a) →
  minimum_width w a → minimum_width w b →
  minimum_width w ("("%char :: a ++ ")"%char :: b).
Proof.
  intros Hpa Hta Hlen Hwa Hwb [|c pre] mid post H Hpm Htm.
  - (* the pair is the leading one *)
    injection H as H.
    apply app_cons_eq_inv in H as [(-> & _ & ->)|[(z & -> & ->)|(z & -> & ->)]].
    + done.
    + rewrite length_app. lia.
    + by destruct (balanced_no_close mid z).
  - injection H as <- H.
    apply app_cons_eq_inv in H as [(_ & ? & _)|[(z & -> & ->)|(z & -> & H)]].
    + done.
    + (* the pair lies after the leading one *)
      by apply (Hwb z mid post).
    + (* the pair opens inside the leading one *)
      apply app_cons_eq_inv in H as [(<- & _ & <-)|[(z' & -> & ->)|(z' & -> & ->)]].
      * unfold total_balance in *.
        specialize (Hpa pre ("("%char :: mid) eq_refl). marks.
      * by apply (Hwa pre mid z').
      * unfold total_balance in *.
        specialize (Hpa pre ("("%char :: z) eq_refl).
        specialize (Hpm (z ++ [")"%char]) z').
        rewrite <- app_assoc in Hpm. specialize (Hpm eq_refl). marks.
Qed.

(** * Induction over the strings the generator yields *)

Lemma elem_of_pair_block s insides afters :
  s ∈ pair_block insides afters
  ↔ ∃ a b, s = format_pair a b ∧ a ∈ insides ∧ b ∈ afters.
Proof.
  unfold pair_block. rewrite list_elem_of_bind. split.
  - intros (a & (b & ->%list_elem_of_singleton & Hb)%list_elem_of_bind & Ha).
    by exists a, b.
  - intros (a & b & -> & Ha & Hb). exists a. split; [|done].
    apply list_elem_of_bind. exists b. by rewrite list_elem_of_singleton.
Qed.

Lemma elem_of_paths_step len w s :
  0 ≤ w → 1 ≤ len →
  s ∈ paths len w
  ↔ (∃ t, s = "." +:+ t ∧ t ∈ paths (len - 1) w)
    ∨ (∃ inner a b, w ≤ inner ≤ len - 2 ∧ s = format_pair a b
         ∧ a ∈ paths inner w ∧ b ∈ paths (len - 2 - inner) w).
Proof.
  intros Hw Hlen. rewrite paths_step, elem_of_app, list_elem_of_fmap by done.
  rewrite list_elem_of_bind. setoid_rewrite elem_of_pair_block.
  setoid_rewrite range_elem. split.
  - intros [?|(inner & (a & b & ?) & ?)]; [by left|right].
    exists inner, a, b. intuition lia.
  - intros [?|(inner & a & b & ? & ?)]; [by left|right].
    exists inner. split; [by exists a, b|lia].
Qed.

Section paths_ind.
Variable w : Z.
Variable P : Z → string → Prop.
Hypothesis Hw : 0 ≤ w.
Hypothesis P_empty : P 0 "".
Hypothesis P_dot : ∀ len t,
  1 ≤ len → t ∈ paths (len - 1) w → P (len - 1) t → P len ("." +:+ t).
Hypothesis P_pair : ∀ len inner a b,
  w ≤ inner ≤ len - 2 →
  a ∈ paths inner w → b ∈ paths (len - 2 - inner) w →
  P inner a → P (len - 2 - inner) b → P len (format_pair a b).

Lemma paths_ind len : 0 ≤ len → ∀ s, s ∈ paths len w → P len s.
Proof.
  intros Hlen. pattern len. apply Zlt_0_ind; [|done].
  clear len Hlen. intros len IH Hlen s Hs.
  destruct (decide (len = 0)) as [->|].
  - rewrite paths_0, list_elem_of_singleton in Hs. by subst.
  - apply elem_of_paths_step in Hs
      as [(t & -> & Ht)|(inner & a & b & ? & -> & Ha & Hb)]; [| |done|lia].
    + apply P_dot; [lia|done|]. apply IH; [lia|done].
    + apply (P_pair _ inner); [done..| |]; apply IH; (lia || done).
Qed.
End paths_ind.

(** Every string yielded for [length] has that length. *)
Lemma paths_length len w s :
  0 ≤ w → 0 ≤ len → s ∈ paths len w → Z.of_nat (String.length s) = len.
Proof.
  intros Hw Hlen. revert len Hlen s.
  apply (paths_ind w (λ len s, Z.of_nat (String.length s) = len)); [done..| |].
  - intros len t ? _ Ht.
    rewrite <- symbols_length, symbols_dot, length_cons, symbols_length. lia.
  - intros len inner a b ? _ _ Ha Hb.
    rewrite <- symbols_length, symbols_format_pair.
    rewrite length_cons, length_app, length_cons, !symbols_length. lia.
Qed.

Lemma paths_valid len w s :
  0 ≤ w → 0 ≤ len → s ∈ paths len w → valid_path w s.
Proof.
  intros Hw Hlen. revert len Hlen s.
  apply (paths_ind w (λ _ s, valid_path w s)); [done|..].
  - split_and!; [apply prefix_balance_nil|done|apply minimum_width_nil].
  - intros len t _ _ (Hp & Ht & Hm). unfold valid_path. rewrite symbols_dot.
    split_and!.
    + by apply prefix_balance_dot.
    + unfold total_balance in *. marks.
    + by apply minimum_width_dot.
  - intros len inner a b ? Ha _ (Hpa & Hta & Hma) (Hpb & Htb & Hmb).
    unfold valid_path. rewrite symbols_format_pair. split_and!.
    + by apply prefix_balance_pair.
    + by apply total_balance_pair.
    + apply minimum_width_pair; [done..| |done|done].
      rewrite symbols_length, (paths_length inner w a); [lia|lia|lia|done].
Qed.

(** * No string is yielded twice *)

Lemma format_pair_inj a b a' b' :
  prefix_balance (symbols a) → total_balance (symbols a) →
  prefix_balance (symbols a') → total_balance (symbols a') →
  format_pair a b = format_pair a' b' → a = a' ∧ b = b'.
Proof.
  intros Hpa Hta Hpa' Hta' H. apply (f_equal symbols) in H.
  rewrite !symbols_format_pair in H. injection H as H.
  apply app_cons_eq_inv in H as [(Ha & _ & Hb)|[(z & Ha & _)|(z & Ha & _)]].
  - split; by apply symbols_inj.
  - rewrite Ha in Hpa'. by destruct (balanced_no_close (symbols a) z).
  - rewrite Ha in Hpa. by destruct (balanced_no_close (symbols a') z).
Qed.

Lemma pair_block_NoDup insides afters :
  Forall (λ a, prefix_balance (symbols a) ∧ total_balance (symbols a)) insides →
  NoDup insides → NoDup afters → NoDup (pair_block insides afters).
Proof.
  rewrite Forall_forall. intros Hbal Hi Ha. unfold pair_block.
  apply NoDup_bind; [| |done].
  - intros a a' s Hina Hina'
      (b & ->%list_elem_of_singleton & _)%list_elem_of_bind
      (b' & Heq%list_elem_of_singleton & _)%list_elem_of_bind.
    destruct (Hbal a Hina), (Hbal a' Hina').
    by destruct (format_pair_inj a b a' b').
  - intros a Hina. destruct (Hbal a Hina). apply NoDup_bind; [| |done].
    + intros b b' s _ _ ->%list_elem_of_singleton Heq%list_elem_of_singleton.
      by destruct (format_pair_inj a b a b').
    + intros. apply NoDup_singleton.
Qed.

Lemma paths_balanced len w :
  0 ≤ w → 0 ≤ len →
  Forall (λ a, prefix_balance (symbols a) ∧ total_balance (symbols a))
         (paths len w).
Proof.
  intros. apply Forall_forall. intros a Ha.
  by destruct (paths_valid len w a) as (? & ? & _).
Qed.

Lemma paths_NoDup len w : 0 ≤ w → 0 ≤ len → NoDup (paths len w).
Proof.
  intros Hw Hlen. pattern len. apply Zlt_0_ind; [|done].
  clear len Hlen. intros len IH Hlen.
  destruct (decide (len = 0)) as [->|]; [apply NoDup_singleton|].
  rewrite paths_step by lia. apply NoDup_app. split_and!.
  - apply NoDup_fmap_2_strong; [|apply IH; lia].
    intros s t _ _ H. simpl in H. by injection H.
  - intros s (t & -> & _)%list_elem_of_fmap
      (inner & (a & b & Heq & _)%elem_of_pair_block & _)%list_elem_of_bind.
    discriminate Heq.
  - apply NoDup_bind; [| |apply NoDup_seqZ].
    + intros i j s [??]%range_elem [??]%range_elem
        (a & b & -> & Ha & _)%elem_of_pair_block
        (a' & b' & Heq & Ha' & _)%elem_of_pair_block.
      destruct (paths_valid i w a) as (? & ? & _); [lia..|done|].
      destruct (paths_valid j w a') as (? & ? & _); [lia..|done|].
      destruct (format_pair_inj a b a' b') as [<- _]; [done..|].
      rewrite <- (paths_length i w a), <- (paths_length j w a); (lia || done).
    + intros i [??]%range_elem.
      apply pair_block_NoDup; [apply paths_balanced|apply IH..]; lia.
Qed.

(** * The all-dots path *)

Lemma all_dots_paths n w : 0 ≤ w → all_dots n ∈ paths (Z.of_nat n) w.
Proof.
  intros Hw. induction n as [|n IH].
  - rewrite paths_0. by apply list_elem_of_singleton.
  - apply elem_of_paths_step; [lia..|]. left. exists (all_dots n).
    split; [done|]. by replace (Z.of_nat (S n) - 1) with (Z.of_nat n) by lia.
Qed.

(** * The number of strings yielded *)

Lemma pair_block_length insides afters :
  List.length (pair_block insides afters)
  = (List.length insides * List.length afters)%nat.
Proof.
  unfold pair_block. induction insides as [|a insides IH]; [done|].
  rewrite bind_cons, length_app, IH. simpl. f_equal.
  clear. induction afters as [|b afters IH]; [done|].
  rewrite bind_cons, length_app, IH. done.
Qed.

Lemma paths_count_step len w :
  0 ≤ w → 1 ≤ len →
  Z.of_nat (List.length (paths len w))
  = Z.of_nat (List.length (paths (len - 1) w))
    + Zsum (λ inner, Z.of_nat (List.length (paths inner w))
                     * Z.of_nat (List.length (paths (len - 2 - inner) w)))
           (range w (len - 1)).
Proof.
  intros Hw Hlen. rewrite paths_step, length_app, length_fmap by done.
  rewrite Nat2Z.inj_add. f_equal.
  induction (range w (len - 1)) as [|i l IH]; [done|].
  rewrite bind_cons, length_app, Nat2Z.inj_add, IH, pair_block_length.
  rewrite Nat2Z.inj_mul. reflexivity.
Qed.

(** * The counter: what a call does to the dictionary *)

Lemma count_loop_cons rec len i inners acc m :
  count_loop rec len (i :: inners) acc m
  = '(a, m1) ← rec i m;
    '(b, m2) ← rec (len - 2 - i) m1;
    count_loop rec len inners (acc + a * b) m2.
Proof. reflexivity. Qed.

Lemma motzkinlengthk_hit fuel len w m cached :
  m !! len = Some cached →
  motzkinlengthk (S fuel) len w m = Some (cached, m).
Proof. intros H. simpl. by rewrite H. Qed.

Lemma motzkinlengthk_miss fuel len w m :
  m !! len = None →
  motzkinlengthk (S fuel) len w m
  = '(sequence1shorter, m1) ← motzkinlengthk fuel (len - 1) w m;
    '(sequencecount, m2) ←
      count_loop (λ l m, motzkinlengthk fuel l w m) len (range w (len - 1)) 0 m1;
    Some (sequence1shorter + sequencecount,
          <[ len := sequence1shorter + sequencecount ]> m2).
Proof.
  intros H. simpl. rewrite H. replace (len - 2 + 1) with (len - 1) by lia.
  destruct (motzkinlengthk fuel (len - 1) w m) as [[s1 m1]|]; [|done]. simpl.
  destruct (count_loop _ len _ 0 m1) as [[sc m2]|]; [|done]. simpl.
  by rewrite lookup_insert_eq.
Qed.

Section cache_invariant.
Variable w : Z.
Variable P : Z → Z → Prop.
(** [P] is closed under the step of the recurrence at width [w]. *)
Hypothesis P_step : ∀ len s1 terms,
  P (len - 1) s1 → loop_terms P len (range w (len - 1)) terms →
  P len (s1 + foldr Z.add 0 terms).

Lemma count_loop_sat rec len inners acc m sc m' :
  (∀ l m v m', cache_sat P m → rec l m = Some (v, m') →
               cache_sat P m' ∧ P l v) →
  cache_sat P m →
  count_loop rec len inners acc m = Some (sc, m') →
  cache_sat P m'
  ∧ ∃ terms, loop_terms P len inners terms ∧ sc = acc + foldr Z.add 0 terms.
Proof.
  intros Hrec. revert acc m.
  induction inners as [|i inners IH]; intros acc m Hm H; simpl in H.
  - injection H as <- <-. split; [done|]. exists []. split; [constructor|].
    simpl. lia.
  - destruct (rec i m) as [[a m1]|] eqn:Ha; [|done]. simpl in H.
    destruct (rec (len - 2 - i) m1) as [[b m2]|] eqn:Hb; [|done]. simpl in H.
    destruct (Hrec _ _ _ _ Hm Ha) as [Hm1 HPa].
    destruct (Hrec _ _ _ _ Hm1 Hb) as [Hm2 HPb].
    destruct (IH _ _ Hm2 H) as (Hm' & terms & Hterms & ->).
    split; [done|]. exists (a * b :: terms). split.
    + constructor; [|done]. by exists a, b.
    + simpl. lia.
Qed.

(** Partial correctness: a call that returns keeps the dictionary within
    [P] and returns a value within [P]. *)
Lemma motzkinlengthk_sat fuel len m v m' :
  cache_sat P m →
  motzkinlengthk fuel len w m = Some (v, m') →
  cache_sat P m' ∧ P len v.
Proof.
  revert len m v m'.
  induction fuel as [|fuel IH]; intros len m v m' Hm H; [done|].
  destruct (m !! len) as [cached|] eqn:Hlook.
  - rewrite (motzkinlengthk_hit _ _ _ _ _ Hlook) in H.
    injection H as <- <-. split; [done|]. by apply Hm.
  - rewrite motzkinlengthk_miss in H by done.
    destruct (motzkinlengthk fuel (len - 1) w m) as [[s1 m1]|] eqn:H1;
      [|done]. simpl in H.
    destruct (count_loop _ len _ 0 m1) as [[sc m2]|] eqn:H2; [|done].
    simpl in H. injection H as <- <-.
    destruct (IH _ _ _ _ Hm H1) as [Hm1 HP1].
    destruct (count_loop_sat _ _ _ _ _ _ _ IH Hm1 H2)
      as (Hm2 & terms & Hterms & ->).
    assert (P len (s1 + (0 + foldr Z.add 0 terms))) as HP.
    { rewrite Z.add_0_l. by apply P_step. }
    split; [|done].
    intros k x [[<- <-]|[_ Hk]]%lookup_insert_Some; [done|by apply Hm2].
Qed.
End cache_invariant.

(** The dictionary only grows: no entry is removed or changed. *)
Lemma count_loop_grows rec len inners acc m sc m' :
  (∀ l m v m', rec l m = Some (v, m') → m ⊆ m') →
  count_loop rec len inners acc m = Some (sc, m') → m ⊆ m'.
Proof.
  intros Hrec. revert acc m.
  induction inners as [|i inners IH]; intros acc m H; simpl in H.
  - by injection H as <- <-.
  - destruct (rec i m) as [[a m1]|] eqn:Ha; [|done]. simpl in H.
    destruct (rec (len - 2 - i) m1) as [[b m2]|] eqn:Hb; [|done]. simpl in H.
    etrans; [by eapply Hrec|]. etrans; [by eapply Hrec|]. by eapply IH.
Qed.

Lemma motzkinlengthk_grows fuel len w m v m' :
  motzkinlengthk fuel len w m = Some (v, m') → m ⊆ m'.
Proof.
  revert len m v m'.
  induction fuel as [|fuel IH]; intros len m v m' H; [done|].
  destruct (m !! len) as [cached|] eqn:Hlook.
  - rewrite (motzkinlengthk_hit _ _ _ _ _ Hlook) in H. by injection H as <- <-.
  - rewrite motzkinlengthk_miss in H by done.
    destruct (motzkinlengthk fuel (len - 1) w m) as [[s1 m1]|] eqn:H1;
      [|done]. simpl in H.
    destruct (count_loop _ len _ 0 m1) as [[sc m2]|] eqn:H2; [|done].
    simpl in H. injection H as <- <-.
    apply (insert_subseteq_r m m2 len _ Hlook).
    etrans; [by eapply IH|].
    exact (count_loop_grows _ _ _ _ _ _ _ IH H2).
Qed.

(** * The counter terminates on non-negative arguments *)

Lemma count_loop_total rec len bound inners acc m :
  (∀ l m, 0 ≤ l ≤ bound → is_Some (m !! 0) →
          ∃ v m', rec l m = Some (v, m') ∧ is_Some (m' !! 0)) →
  (∀ i, i ∈ inners → 0 ≤ i ≤ bound ∧ 0 ≤ len - 2 - i ≤ bound) →
  is_Some (m !! 0) →
  ∃ sc m', count_loop rec len inners acc m = Some (sc, m') ∧ is_Some (m' !! 0).
Proof.
  intros Hrec. revert acc m.
  induction inners as [|i inners IH]; intros acc m Hin Hm; simpl.
  - by exists acc, m.
  - destruct (Hin i) as [Hi Hi']; [by left|].
    destruct (Hrec i m Hi Hm) as (a & m1 & -> & Hm1). simpl.
    destruct (Hrec _ m1 Hi' Hm1) as (b & m2 & -> & Hm2). simpl.
    apply IH; [|done]. intros j Hj. apply Hin. by right.
Qed.

Lemma motzkinlengthk_total fuel len w m :
  0 ≤ w → 0 ≤ len → (Z.to_nat len < fuel)%nat → is_Some (m !! 0) →
  ∃ v m', motzkinlengthk fuel len w m = Some (v, m') ∧ is_Some (m' !! 0).
Proof.
  intros Hw. revert len m.
  induction fuel as [|fuel IH]; intros len m Hlen Hfuel Hm; [lia|].
  destruct (m !! len) as [cached|] eqn:Hlook.
  - rewrite (motzkinlengthk_hit _ _ _ _ _ Hlook). by exists cached, m.
  - rewrite motzkinlengthk_miss by done.
    assert (len ≠ 0) by (intros ->; rewrite Hlook in Hm; by destruct Hm).
    destruct (IH (len - 1) m) as (s1 & m1 & -> & Hm1); [lia..|done|]. simpl.
    destruct (count_loop_total (λ l m, motzkinlengthk fuel l w m) len (len - 2)
                (range w (len - 1)) 0 m1) as (sc & m2 & -> & Hm2); [| |done|].
    + intros l m0 ? ?. apply IH; [lia..|done].
    + intros i [??]%range_elem. lia.
    + simpl. eexists _, _. split; [done|].
      rewrite lookup_insert_ne by done. done.
Qed.

(** * The counter fails on negative lengths *)

(** With no negative key in the dictionary, a call with a negative length
    recurses on [length - 1] until the stack is exhausted, whatever its
    depth. *)
Lemma motzkinlengthk_negative fuel len w m :
  cache_sat (λ k _, 0 ≤ k) m → len < 0 → motzkinlengthk fuel len w m = None.
Proof.
  intros Hm. revert len.
  induction fuel as [|fuel IH]; intros len Hlen; [done|].
  destruct (m !! len) as [cached|] eqn:Hlook.
  - apply Hm in Hlook. lia.
  - rewrite motzkinlengthk_miss by done. by rewrite IH by lia.
Qed.

(** * Invariants of the dictionary *)

Lemma positive_entry_step w len s1 terms :
  positive_entry (len - 1) s1 →
  loop_terms positive_entry len (range w (len - 1)) terms →
  positive_entry len (s1 + foldr Z.add 0 terms).
Proof.
  intros [??] Hterms. split; [lia|].
  assert (0 ≤ foldr Z.add 0 terms); [|lia].
  induction Hterms as [|i t l ts (a & b & [??] & [??] & ->) _ IH]; simpl; nia.
Qed.

Lemma exact_entry_terms w len inners terms :
  loop_terms (exact_entry w) len inners terms →
  foldr Z.add 0 terms
  = Zsum (λ inner, Z.of_nat (List.length (paths inner w))
                   * Z.of_nat (List.length (paths (len - 2 - inner) w))) inners.
Proof.
  induction 1 as [|i t l ts (a & b & [_ ->] & [_ ->] & ->) _ IH]; [done|].
  unfold Zsum in *. simpl. by rewrite IH.
Qed.

Lemma exact_entry_step w len s1 terms :
  0 ≤ w →
  exact_entry w (len - 1) s1 →
  loop_terms (exact_entry w) len (range w (len - 1)) terms →
  exact_entry w len (s1 + foldr Z.add 0 terms).
Proof.
  intros Hw [? ->] Hterms. split; [lia|].
  rewrite (exact_entry_terms _ _ _ _ Hterms).
  symmetry. apply paths_count_step; lia.
Qed.

Lemma reachable_sat allowed P m :
  P 0 1 →
  (∀ w len s1 terms, allowed w →
     P (len - 1) s1 → loop_terms P len (range w (len - 1)) terms →
     P len (s1 + foldr Z.add 0 terms)) →
  reachable allowed m → cache_sat P m ∧ m !! 0 = Some 1.
Proof.
  intros P0 Pstep. induction 1 as [|m fuel len w v m' _ [IHsat IH0] Hw Hrun].
  - unfold memoize0. split; [|done].
    by intros k v [<- <-]%lookup_singleton_Some.
  - split.
    + by destruct (motzkinlengthk_sat w P (λ l s t, Pstep w l s t Hw)
                     fuel len m v m' IHsat Hrun).
    + eapply lookup_weaken; [done|]. by eapply motzkinlengthk_grows.
Qed.

Lemma any_width_positive m :
  any_width m → cache_sat positive_entry m ∧ m !! 0 = Some 1.
Proof.
  apply reachable_sat; [split; lia|].
  intros w len s1 terms _. apply positive_entry_step.
Qed.

Lemma single_width_exact w m :
  0 ≤ w → single_width w m → cache_sat (exact_entry w) m ∧ m !! 0 = Some 1.
Proof.
  intros Hw. apply reachable_sat; [done|].
  intros w' len s1 terms ->. by apply exact_entry_step.
Qed.

Lemma single_width_any w m : single_width w m → any_width m.
Proof. induction 1; econstructor; eauto. Qed.

(** In a process that has used width [w] only, a call at [w] returns the
    number of strings the generator yields, and the process remains one
    that has used [w] only. *)
Lemma motzkinlengthk_exact fuel len w m :
  0 ≤ w → 0 ≤ len → (Z.to_nat len < fuel)%nat → single_width w m →
  ∃ m', motzkinlengthk fuel len w m
        = Some (Z.of_nat (List.length (paths len w)), m')
        ∧ single_width w m'.
Proof.
  intros Hw Hlen Hfuel Hm.
  destruct (single_width_exact w m Hw Hm) as [Hsat H0].
  destruct (motzkinlengthk_total fuel len w m) as (v & m' & Hrun & _);
    [done..|by rewrite H0|].
  destruct (motzkinlengthk_sat w (exact_entry w)
              (λ l s t, exact_entry_step w l s t Hw) fuel len m v m' Hsat Hrun)
    as [_ [_ ->]].
  exists m'. split; [done|]. by eapply reachable_call.
Qed.

Lemma count_paths len w :
  0 ≤ w → 0 ≤ len → count len w = Z.of_nat (List.length (paths len w)).
Proof.
  intros Hw Hlen. unfold count.
  destruct (motzkinlengthk_exact (S (Z.to_nat len)) len w memoize0)
    as (m' & -> & _); [lia..|constructor|done].
Qed.

(** In any process, a call with non-negative arguments returns a value of
    at least one. *)
Lemma motzkinlengthk_positive fuel len w m :
  0 ≤ w → 0 ≤ len → (Z.to_nat len < fuel)%nat → any_width m →
  ∃ v m', motzkinlengthk fuel len w m = Some (v, m') ∧ 1 ≤ v.
Proof.
  intros Hw Hlen Hfuel Hm.
  destruct (any_width_positive m Hm) as [Hsat H0].
  destruct (motzkinlengthk_total fuel len w m) as (v & m' & Hrun & _);
    [done..|by rewrite H0|].
  destruct (motzkinlengthk_sat w positive_entry (positive_entry_step w)
              fuel len m v m' Hsat Hrun) as [_ [_ ?]].
  by exists v, m'.
Qed.

(** * Arguments that are not accepted *)

Lemma motzkin_sequences_negative fuel len w :
  len < 0 → motzkin_sequences fuel len w = None.
Proof.
  revert len. induction fuel as [|fuel IH]; intros len Hlen; [done|].
  simpl. destruct (decide (len = 0)); [lia|]. by rewrite IH by lia.
Qed.

Lemma motzkin_sequences_negative_width fuel len w :
  w < 0 → 1 ≤ len → motzkin_sequences fuel len w = None.
Proof.
  intros Hw. revert len. induction fuel as [|fuel IH]; intros len Hlen; [done|].
  simpl. destruct (decide (len = 0)); [lia|].
  destruct (decide (len = 1)) as [->|]; [|by rewrite IH by lia].
  destruct (motzkin_sequences fuel (1 - 1) w); [|done]. simpl.
  rewrite range_cons by lia. simpl.
  by rewrite (motzkin_sequences_negative fuel w w Hw).
Qed.

Lemma motzkinlengthk_negative_width fuel len w :
  w < 0 → 1 ≤ len → motzkinlengthk fuel len w memoize0 = None.
Proof.
  intros Hw. revert len. induction fuel as [|fuel IH]; intros len Hlen; [done|].
  rewrite motzkinlengthk_miss
    by (apply lookup_singleton_None; lia).
  destruct (decide (len = 1)) as [->|]; [|by rewrite IH by lia].
  destruct fuel as [|fuel]; [done|].
  rewrite (motzkinlengthk_hit _ (1 - 1) _ _ 1) by reflexivity.
  rewrite range_cons by lia. cbn [mbind option_bind]. rewrite count_loop_cons.
  assert (cache_sat (λ k _, 0 ≤ k) memoize0) as Hsat.
  { unfold memoize0. intros k v [<- _]%lookup_singleton_Some. lia. }
  by rewrite (motzkinlengthk_negative (S fuel) w w memoize0 Hsat Hw).
Qed.

(** * The examples of the docstrings *)

Lemma occurrences_prefix c p q : (occurrences c p ≤ occurrences c (p ++ q))%nat.
Proof. rewrite occurrences_app. lia. Qed.

(** A string without [)] is prefix-balanced. *)
Lemma prefix_balance_no_close l : closes l = 0%nat → prefix_balance l.
Proof.
  intros Hl p q ->. pose proof (occurrences_prefix ")"%char p q). lia.
Qed.

Lemma paths_valid_at len w s :
  0 ≤ w → 0 ≤ len → bool_decide (s ∈ paths len w) = true → valid_path w s.
Proof.
  intros Hw Hlen Hs. apply (paths_valid len w s Hw Hlen).
  by apply bool_decide_eq_true in Hs.
Qed.

(** ['(...)(())...'] has minimum width 0. *)
Example docstring_width_0 : valid_path 0 "(...)(())...".
Proof. apply (paths_valid_at 12); [lia..|]. by vm_compute. Qed.

(** ['.(.(.....))'] has minimum width 5. *)
Example docstring_width_5 : valid_path 5 ".(.(.....))".
Proof. apply (paths_valid_at 11); [lia..|]. by vm_compute. Qed.

(** ['.(.(...))'] works for width 3. *)
Example docstring_works : valid_path 3 ".(.(...))".
Proof. apply (paths_valid_at 9); [lia..|]. by vm_compute. Qed.

(** ['.(.(..))'] is a violation: only two dots between the innermost
    parentheses. *)
Example docstring_too_narrow : ¬ valid_path 3 ".(.(..))".
Proof.
  intros (_ & _ & Hw).
  specialize (Hw (symbols ".(.") (symbols "..") (symbols ")") eq_refl).
  simpl in Hw. assert (3 ≤ 2); [|lia].
  apply Hw; [by apply prefix_balance_no_close|done].
Qed.

(** ['.)(.()'] is a violation: a closed parenthesis comes first. *)
Example docstring_close_first : ¬ valid_path 0 ".)(.()".
Proof.
  intros (Hp & _ & _).
  specialize (Hp (symbols ".)") (symbols "(.()") eq_refl).
  vm_compute in Hp. lia.
Qed.

(** ['.(.(...)'] is a violation: more open than closed parentheses. *)
Example docstring_not_closed : ¬ valid_path 0 ".(.(...)".
Proof. intros (_ & Ht & _). vm_compute in Ht. discriminate Ht. Qed.

(** ['()......'], of the doctest, has no room between its parentheses. *)
Example doctest_excluded : ¬ valid_path 3 "()......".
Proof.
  intros (_ & _ & Hw).
  specialize (Hw [] [] (symbols "......") eq_refl).
  simpl in Hw. assert (3 ≤ 0); [|lia].
  apply Hw; [by apply prefix_balance_no_close|done].
Qed.

Lemma Zsum_ext f g l : (∀ i, i ∈ l → f i = g i) → Zsum f l = Zsum g l.
Proof.
  unfold Zsum. induction l as [|i l IH]; intros H; [done|].
  rewrite !fmap_cons. cbn [foldr]. f_equal; [apply H; by left|].
  apply IH. intros j Hj. apply H. by right.
Qed.

(** * The properties of the specification *)

(** Within one width the counter and the generator agree: for every length
    and minimum width that are not negative, the number of strings
    [motzkin_sequences(length, minwidth)] yields is the integer
    [motzkinlengthk(length, minwidth)] returns, in a fresh process and in
    any process that has called the counter with that width only. *)
Theorem count_equals_enumeration len w fuel m :
  0 ≤ len → 0 ≤ w → (Z.to_nat len < fuel)%nat → single_width w m →
  ∃ out m',
    motzkin_sequences fuel len w = Some out
    ∧ motzkinlengthk fuel len w m = Some (Z.of_nat (List.length out), m').
Proof.
  intros Hlen Hw Hfuel Hm. exists (paths len w).
  destruct (motzkinlengthk_exact fuel len w m) as (m' & Hrun & _); [done..|].
  exists m'. split; [by apply motzkin_sequences_paths|done].
Qed.

Lemma count_equals_enumeration_witness :
  (0 ≤ 8 ∧ 0 ≤ 3 ∧ (Z.to_nat 8 < 9)%nat ∧ single_width 3 memoize0)
  ∧ ∃ out m',
      motzkin_sequences 9 8 3 = Some out
      ∧ motzkinlengthk 9 8 3 memoize0 = Some (Z.of_nat (List.length out), m').
Proof.
  assert (0 ≤ 8) as H1 by lia. assert (0 ≤ 3) as H2 by lia.
  assert (Z.to_nat 8 < 9)%nat as H3 by (simpl; lia).
  assert (single_width 3 memoize0) as H4 by constructor.
  split; [done|]. exact (count_equals_enumeration 8 3 9 memoize0 H1 H2 H3 H4).
Defined.

(** Within one width the counter follows the recurrence: for every width
    [w >= 0], [count(0, w) = 1], and for every [length >= 1],
    [count(length, w)] is [count(length - 1, w)] plus the sum over [inner]
    from [w] to [length - 2] of
    [count(inner, w) * count(length - 2 - inner, w)] (the empty sum is 0);
    [count length w] is what the call returns in a fresh process and in any
    process that has called the counter with width [w] only. *)
Theorem count_recurrence w :
  0 ≤ w →
  (∀ len fuel m,
     0 ≤ len → (Z.to_nat len < fuel)%nat → single_width w m →
     ∃ m', motzkinlengthk fuel len w m = Some (count len w, m'))
  ∧ count 0 w = 1
  ∧ ∀ len, 1 ≤ len →
      count len w
      = count (len - 1) w
        + Zsum (λ inner, count inner w * count (len - 2 - inner) w)
               (range w (len - 2 + 1)).
Proof.
  intros Hw. split_and!.
  - intros len fuel m Hlen Hfuel Hm. rewrite count_paths by done.
    destruct (motzkinlengthk_exact fuel len w m) as (m' & Hrun & _); [done..|].
    by exists m'.
  - reflexivity.
  - intros len Hlen. replace (len - 2 + 1) with (len - 1) by lia.
    rewrite !count_paths, paths_count_step by lia. f_equal.
    apply Zsum_ext. intros i [??]%range_elem. by rewrite !count_paths by lia.
Qed.

Lemma count_recurrence_witness :
  0 ≤ 0
  ∧ (∀ len fuel m,
       0 ≤ len → (Z.to_nat len < fuel)%nat → single_width 0 m →
       ∃ m', motzkinlengthk fuel len 0 m = Some (count len 0, m'))
  ∧ count 0 0 = 1
  ∧ ∀ len, 1 ≤ len →
      count len 0
      = count (len - 1) 0
        + Zsum (λ inner, count inner 0 * count (len - 2 - inner) 0)
               (range 0 (len - 2 + 1)).
Proof.
  assert (0 ≤ 0) as H by lia. split; [done|]. exact (count_recurrence 0 H).
Defined.

(** C1 (the code does not keep this once two widths are used).  Length 5
    with the minimum widths 0 and 3 lies in the range of the property, yet
    in one process, after [motzkinlengthk(5, 0)] has returned 21,
    [motzkinlengthk(5, 3)] returns 21 again, found under the key 5 of the
    shared dictionary, while [motzkin_sequences(5, 3)] yields 2 strings. *)
Theorem count_differs_from_enumeration :
  ∃ m out,
    motzkinlengthk 6 5 0 memoize0 = Some (21, m)
    ∧ motzkinlengthk 6 5 3 m = Some (21, m)
    ∧ motzkin_sequences 6 5 3 = Some out
    ∧ Z.of_nat (List.length out) = 2.
Proof.
  eexists _, _. split; [vm_compute; reflexivity|].
  split_and!; vm_compute; reflexivity.
Qed.

(** C2 (the code does not keep this once two widths are used).  In one
    process, after [motzkinlengthk(5, 0)], the calls at width 3 for the
    lengths 5, 4, 3 and 0 return 21, 9, 4 and 1, all found in the shared
    dictionary, which they leave as it is; the sum of the recurrence at
    length 5 and width 3 runs over [inner = 3] only, and
    [21 <> 9 + 4 * 1].  The base case holds: [count(0, w)] is the entry 0
    of the dictionary. *)
Theorem recurrence_broken_after_other_width :
  ∃ m,
    motzkinlengthk 6 5 0 memoize0 = Some (21, m)
    ∧ motzkinlengthk 6 5 3 m = Some (21, m)
    ∧ motzkinlengthk 6 (5 - 1) 3 m = Some (9, m)
    ∧ motzkinlengthk 6 3 3 m = Some (4, m)
    ∧ motzkinlengthk 6 (5 - 2 - 3) 3 m = Some (1, m)
    ∧ range 3 (5 - 2 + 1) = [3]
    ∧ 21 ≠ 9 + Zsum (λ inner, 4 * 1) (range 3 (5 - 2 + 1)).
Proof.
  eexists. split; [vm_compute; reflexivity|].
  split_and!; [vm_compute; reflexivity..|]. by vm_compute.
Qed.

(** C3 (the code does not do this). The dictionary is keyed by the length
    alone and shared by all widths: after [motzkinlengthk(5, 0)] has
    returned 21, [motzkinlengthk(5, 3)] returns the 21 stored for width 0,
    where the recurrence for width 3, the same call in a fresh process and the
    generator all give 2. *)
Theorem cache_shared_between_widths :
  ∃ m, motzkinlengthk 6 5 0 memoize0 = Some (21, m)
       ∧ fst <$> motzkinlengthk 6 5 3 m = Some 21
       ∧ fst <$> motzkinlengthk 6 5 3 memoize0 = Some 2
       ∧ motzkin_sequences 6 5 3 = Some ["....."; "(...)"].
Proof.
  eexists. split; [vm_compute; reflexivity|].
  split_and!; vm_compute; reflexivity.
Qed.

(** C4, as the code has it.  There is no argument check and no
    [InvalidArgument]: a call of the counter, or the consumption of the
    generator to its end, fails only by exhausting the call stack, and,
    given a stack deep enough for the length, it does so exactly when
    [length < 0], or [minwidth < 0] and [length] is not 0 (the counter: as
    the first call of a process).  With [length = 0] a negative [minwidth] is
    accepted; all arguments that are not negative are accepted. *)
Theorem failure_characterisation len w fuel :
  (Z.to_nat len < fuel)%nat →
  (motzkinlengthk fuel len w memoize0 = None ↔ fails_on len w)
  ∧ (motzkin_sequences fuel len w = None ↔ fails_on len w).
Proof.
  intros Hfuel. unfold fails_on.
  assert (cache_sat (λ k _, 0 ≤ k) memoize0) as Hsat.
  { unfold memoize0. intros k v [<- _]%lookup_singleton_Some. lia. }
  destruct (decide (len < 0)) as [Hneg|Hnn].
  { rewrite motzkin_sequences_negative, motzkinlengthk_negative by done.
    naive_solver. }
  destruct (decide (len = 0)) as [->|Hpos].
  { destruct fuel as [|fuel]; [lia|]. simpl. split; (split; [done|lia]). }
  destruct (decide (w < 0)) as [Hw|Hw].
  { rewrite motzkin_sequences_negative_width,
      motzkinlengthk_negative_width by lia. naive_solver. }
  destruct (motzkinlengthk_total fuel len w memoize0)
    as (v & m' & -> & _); [lia..|done|].
  destruct (motzkin_sequences_total fuel len w) as [out ->]; [lia..|].
  split; (split; [done|lia]).
Qed.

Lemma failure_characterisation_witness :
  (Z.to_nat 0 < 1)%nat
  ∧ (motzkinlengthk 1 0 (-1) memoize0 = None ↔ fails_on 0 (-1))
  ∧ (motzkin_sequences 1 0 (-1) = None ↔ fails_on 0 (-1)).
Proof.
  assert (Z.to_nat 0 < 1)%nat as H by (simpl; lia).
  split; [done|]. exact (failure_characterisation 0 (-1) 1 H).
Defined.

(** C4 as stated does not hold: with length 0 and a negative minimum width
    both operations return normally. *)
Lemma negative_minwidth_accepted :
  motzkinlengthk 1 0 (-1) memoize0 = Some (1, memoize0)
  ∧ motzkin_sequences 1 0 (-2) = Some [""]
  ∧ ¬ (∀ len w fuel, len < 0 ∨ w < 0 →
         motzkinlengthk fuel len w memoize0 = None
         ∧ motzkin_sequences fuel len w = None).
Proof.
  split_and!; [done..|]. intros H.
  destruct (H 0 (-1) 1%nat) as [_ Hseq]; [lia|]. discriminate Hseq.
Qed.

(** C5. Every string [motzkin_sequences(length, minwidth)] yields, for
    [length >= 0] and [minwidth >= 0], satisfies prefix balance, total
    balance and the minimum width (every matched pair encloses at least
    [minwidth] symbols). *)
Theorem enumerate_valid len w fuel :
  0 ≤ len → 0 ≤ w → (Z.to_nat len < fuel)%nat →
  ∃ out, motzkin_sequences fuel len w = Some out
         ∧ ∀ s, s ∈ out →
             prefix_balance (symbols s) ∧ total_balance (symbols s)
             ∧ minimum_width w (symbols s).
Proof.
  intros Hlen Hw Hfuel. exists (paths len w).
  split; [by apply motzkin_sequences_paths|].
  intros s Hs. by apply (paths_valid len w s).
Qed.

Lemma enumerate_valid_witness :
  (0 ≤ 8 ∧ 0 ≤ 3 ∧ (Z.to_nat 8 < 9)%nat)
  ∧ ∃ out, motzkin_sequences 9 8 3 = Some out
           ∧ ∀ s, s ∈ out →
               prefix_balance (symbols s) ∧ total_balance (symbols s)
               ∧ minimum_width 3 (symbols s).
Proof.
  assert (0 ≤ 8) as H1 by lia. assert (0 ≤ 3) as H2 by lia.
  assert (Z.to_nat 8 < 9)%nat as H3 by (simpl; lia).
  split; [done|]. exact (enumerate_valid 8 3 9 H1 H2 H3).
Defined.

(** C6. For [length >= 0] and [minwidth >= 0], the strings one invocation
    of [motzkin_sequences(length, minwidth)] yields are pairwise distinct. *)
Theorem enumerate_distinct len w fuel :
  0 ≤ len → 0 ≤ w → (Z.to_nat len < fuel)%nat →
  ∃ out, motzkin_sequences fuel len w = Some out ∧ NoDup out.
Proof.
  intros Hlen Hw Hfuel. exists (paths len w).
  split; [by apply motzkin_sequences_paths|by apply paths_NoDup].
Qed.

Lemma enumerate_distinct_witness :
  (0 ≤ 8 ∧ 0 ≤ 3 ∧ (Z.to_nat 8 < 9)%nat)
  ∧ ∃ out, motzkin_sequences 9 8 3 = Some out ∧ NoDup out.
Proof.
  assert (0 ≤ 8) as H1 by lia. assert (0 ≤ 3) as H2 by lia.
  assert (Z.to_nat 8 < 9)%nat as H3 by (simpl; lia).
  split; [done|]. exact (enumerate_distinct 8 3 9 H1 H2 H3).
Defined.

(** C7. The strings of [motzkin_sequences(length, minwidth)], for
    [length >= 1], come in this order: first a [.] followed by each string
    of the invocation for [length - 1], in its order; then, for [inner]
    ascending from [minwidth] to [length - 2], for each [inside] of the
    invocation for [inner] (outer loop) and each [after] of the invocation
    for [length - 2 - inner] (inner loop), the string [(inside)after].  So
    every string that starts with a dot comes before every string that
    starts with a parenthesis. *)
Theorem enumerate_order len w fuel :
  1 ≤ len → 0 ≤ w → (Z.to_nat len < fuel)%nat →
  ∃ result : Z → list string,
    (∀ l, 0 ≤ l ≤ len → motzkin_sequences fuel l w = Some (result l))
    ∧ result len
      = ((λ seq, "." +:+ seq) <$> result (len - 1))
        ++ (inner ← range w (len - 2 + 1);
            inside ← result inner;
            after ← result (len - 2 - inner);
            [format_pair inside after])
    ∧ ∀ i j s t,
        result len !! i = Some ("." +:+ s) →
        result len !! j = Some ("(" +:+ t) → (i < j)%nat.
Proof.
  intros Hlen Hw Hfuel. exists (λ l, paths l w).
  assert (paths len w
      = ((λ seq, "." +:+ seq) <$> paths (len - 1) w)
        ++ (inner ← range w (len - 2 + 1);
            inside ← paths inner w;
            after ← paths (len - 2 - inner) w;
            [format_pair inside after])) as Hstep.
  { replace (len - 2 + 1) with (len - 1) by lia. by apply paths_step. }
  split_and!; [|done|].
  - intros l ?. apply motzkin_sequences_paths; lia.
  - intros i j s t. rewrite Hstep. intros Hi Hj.
    destruct (decide (i < j)%nat) as [|Hij]; [done|exfalso].
    set (dots := (λ seq, "." +:+ seq) <$> paths (len - 1) w) in *.
    destruct (decide (j < List.length dots)%nat) as [Hjd|Hjd].
    + rewrite lookup_app_l in Hj by done.
      apply list_elem_of_lookup_2, list_elem_of_fmap in Hj as (u & Hu & _).
      discriminate Hu.
    + rewrite lookup_app_r in Hi by lia.
      apply list_elem_of_lookup_2, list_elem_of_bind in Hi
        as (inner & (a & b & Heq & _)%elem_of_pair_block & _).
      discriminate Heq.
Qed.

Lemma enumerate_order_witness :
  (1 ≤ 5 ∧ 0 ≤ 3 ∧ (Z.to_nat 5 < 6)%nat)
  ∧ ∃ result : Z → list string,
      (∀ l, 0 ≤ l ≤ 5 → motzkin_sequences 6 l 3 = Some (result l))
      ∧ result 5
        = ((λ seq, "." +:+ seq) <$> result (5 - 1))
          ++ (inner ← range 3 (5 - 2 + 1);
              inside ← result inner;
              after ← result (5 - 2 - inner);
              [format_pair inside after])
      ∧ ∀ i j s t,
          result 5 !! i = Some ("." +:+ s) →
          result 5 !! j = Some ("(" +:+ t) → (i < j)%nat.
Proof.
  assert (1 ≤ 5) as H1 by lia. assert (0 ≤ 3) as H2 by lia.
  assert (Z.to_nat 5 < 6)%nat as H3 by (simpl; lia).
  split; [done|]. exact (enumerate_order 5 3 6 H1 H2 H3).
Defined.

(** C8. [motzkin_sequences(8, 3)] yields exactly 16 strings, pairwise
    distinct; ["(.(...))"] is one of them and ["()......"] is not. *)
Theorem enumerate_8_3 :
  ∃ out,
    (∀ fuel, (8 < fuel)%nat → motzkin_sequences fuel 8 3 = Some out)
    ∧ List.length out = 16%nat
    ∧ NoDup out
    ∧ "(.(...))" ∈ out
    ∧ "()......" ∉ out.
Proof.
  exists (paths 8 3). split_and!.
  - intros fuel Hfuel. apply motzkin_sequences_paths; simpl; lia.
  - by vm_compute.
  - by apply paths_NoDup.
  - apply (bool_decide_unpack _). by vm_compute.
  - apply (bool_decide_unpack _). by vm_compute.
Qed.


(** C10. For [length >= 0] and [minwidth >= 0], in any state of the
    process, [motzkinlengthk(length, minwidth)] returns at least 1, and
    [motzkin_sequences(length, minwidth)] yields at least one string, the
    string of [length] dots being one of them, however large [minwidth] is
    next to [length]. *)
Theorem all_dots_always_counted len w fuel m :
  0 ≤ len → 0 ≤ w → (Z.to_nat len < fuel)%nat → any_width m →
  ∃ v m' out,
    motzkinlengthk fuel len w m = Some (v, m') ∧ 1 ≤ v
    ∧ motzkin_sequences fuel len w = Some out
    ∧ all_dots (Z.to_nat len) ∈ out ∧ (1 ≤ List.length out)%nat.
Proof.
  intros Hlen Hw Hfuel Hm.
  destruct (motzkinlengthk_positive fuel len w m) as (v & m' & Hrun & Hv);
    [done..|].
  exists v, m', (paths len w).
  assert (all_dots (Z.to_nat len) ∈ paths len w) as Hdots.
  { rewrite <- (Z2Nat.id len) at 2 by done. by apply all_dots_paths. }
  split_and!; [done|done|by apply motzkin_sequences_paths|done|].
  destruct (paths len w); [by apply elem_of_nil in Hdots|simpl; lia].
Qed.

Lemma all_dots_always_counted_witness :
  (0 ≤ 2 ∧ 0 ≤ 7 ∧ (Z.to_nat 2 < 3)%nat ∧ any_width memoize0)
  ∧ ∃ v m' out,
      motzkinlengthk 3 2 7 memoize0 = Some (v, m') ∧ 1 ≤ v
      ∧ motzkin_sequences 3 2 7 = Some out
      ∧ all_dots (Z.to_nat 2) ∈ out ∧ (1 ≤ List.length out)%nat.
Proof.
  assert (0 ≤ 2) as H1 by lia. assert (0 ≤ 7) as H2 by lia.
  assert (Z.to_nat 2 < 3)%nat as H3 by (simpl; lia).
  assert (any_width memoize0) as H4 by constructor.
  split; [done|]. exact (all_dots_always_counted 2 7 3 memoize0 H1 H2 H3 H4).
Defined.

(** * Further properties of the generator *)

(** X1. Every string [motzkin_sequences(length, minwidth)] yields has
    exactly [length] characters, each of them [.], [(] or [)]. *)
Theorem enumerate_length_alphabet len w fuel :
  0 ≤ len → 0 ≤ w → (Z.to_nat len < fuel)%nat →
  ∃ out, motzkin_sequences fuel len w = Some out
         ∧ ∀ s, s ∈ out →
             Z.of_nat (String.length s) = len
             ∧ Forall path_symbol (symbols s).
Proof.
  intros Hlen Hw Hfuel. exists (paths len w).
  split; [by apply motzkin_sequences_paths|].
  intros s Hs. split; [by apply (paths_length len w)|].
  clear Hfuel. revert len Hlen s Hs.
  apply (paths_ind w (λ _ s, Forall path_symbol (symbols s))); [done|..].
  - constructor.
  - intros len t _ _ Ht. rewrite symbols_dot. constructor; [by left|done].
  - intros len inner a b _ _ _ Ha Hb. rewrite symbols_format_pair.
    constructor; [right; by left|]. apply Forall_app. split; [done|].
    constructor; [right; by right|done].
Qed.

Lemma enumerate_length_alphabet_witness :
  (0 ≤ 8 ∧ 0 ≤ 3 ∧ (Z.to_nat 8 < 9)%nat)
  ∧ ∃ out, motzkin_sequences 9 8 3 = Some out
           ∧ ∀ s, s ∈ out →
               Z.of_nat (String.length s) = 8
               ∧ Forall path_symbol (symbols s).
Proof.
  assert (0 ≤ 8) as H1 by lia. assert (0 ≤ 3) as H2 by lia.
  assert (Z.to_nat 8 < 9)%nat as H3 by (simpl; lia).
  split; [done|]. exact (enumerate_length_alphabet 8 3 9 H1 H2 H3).
Defined.

Lemma paths_width_mono len w w' s :
  0 ≤ w ≤ w' → 0 ≤ len → s ∈ paths len w' → s ∈ paths len w.
Proof.
  intros Hw Hlen. revert len Hlen s.
  apply (paths_ind w' (λ len s, s ∈ paths len w)); [lia|..].
  - rewrite paths_0. by apply list_elem_of_singleton.
  - intros len t ? _ Ht. apply elem_of_paths_step; [lia..|]. left. by exists t.
  - intros len inner a b ? _ _ Ha Hb. apply elem_of_paths_step; [lia..|].
    right. exists inner, a, b. split_and!; [lia|lia|done..].
Qed.

(** X3. Raising the minimum width only removes strings: for
    [0 <= minwidth <= minwidth'], every string yielded for [minwidth'] is
    yielded for [minwidth], so there are at most as many. *)
Theorem enumerate_width_monotone len w w' fuel :
  0 ≤ len → 0 ≤ w ≤ w' → (Z.to_nat len < fuel)%nat →
  ∃ out out',
    motzkin_sequences fuel len w = Some out
    ∧ motzkin_sequences fuel len w' = Some out'
    ∧ (∀ s, s ∈ out' → s ∈ out)
    ∧ (List.length out' ≤ List.length out)%nat.
Proof.
  intros Hlen Hw Hfuel. exists (paths len w), (paths len w').
  split_and!; [apply motzkin_sequences_paths; lia..| |].
  - intros s. by apply paths_width_mono.
  - apply submseteq_length, NoDup_submseteq; [apply paths_NoDup; lia|].
    intros s. by apply paths_width_mono.
Qed.

Lemma enumerate_width_monotone_witness :
  (0 ≤ 6 ∧ 0 ≤ 1 ≤ 3 ∧ (Z.to_nat 6 < 7)%nat)
  ∧ ∃ out out',
      motzkin_sequences 7 6 1 = Some out
      ∧ motzkin_sequences 7 6 3 = Some out'
      ∧ (∀ s, s ∈ out' → s ∈ out)
      ∧ (List.length out' ≤ List.length out)%nat.
Proof.
  assert (0 ≤ 6) as H1 by lia. assert (0 ≤ 1 ≤ 3) as H2 by lia.
  assert (Z.to_nat 6 < 7)%nat as H3 by (simpl; lia).
  split; [done|]. exact (enumerate_width_monotone 6 1 3 7 H1 H2 H3).
Defined.

Lemma paths_only_dots n w :
  Z.of_nat n - 1 ≤ w → 0 ≤ w → paths (Z.of_nat n) w = [all_dots n].
Proof.
  intros Hn Hw. induction n as [|n IH]; [done|].
  rewrite paths_step by lia. rewrite range_nil by lia.
  replace (Z.of_nat (S n) - 1) with (Z.of_nat n) by lia.
  rewrite IH by lia. done.
Qed.

(** X4. When [minwidth > length - 2] no pair of parentheses fits: the
    generator yields the string of [length] dots and nothing else, and the
    counter, in a process that has used this width only, returns 1. *)
Theorem only_dots_when_too_wide len w fuel m :
  0 ≤ len → len - 1 ≤ w → 0 ≤ w → (Z.to_nat len < fuel)%nat →
  single_width w m →
  motzkin_sequences fuel len w = Some [all_dots (Z.to_nat len)]
  ∧ ∃ m', motzkinlengthk fuel len w m = Some (1, m').
Proof.
  intros Hlen Hwide Hw Hfuel Hm.
  assert (paths len w = [all_dots (Z.to_nat len)]) as Hpaths.
  { rewrite <- (Z2Nat.id len) at 1 by done. apply paths_only_dots; lia. }
  split; [by rewrite motzkin_sequences_paths, Hpaths|].
  destruct (motzkinlengthk_exact fuel len w m) as (m' & Hrun & _); [done..|].
  rewrite Hpaths in Hrun. by exists m'.
Qed.

Lemma only_dots_when_too_wide_witness :
  (0 ≤ 4 ∧ 4 - 1 ≤ 3 ∧ 0 ≤ 3 ∧ (Z.to_nat 4 < 5)%nat ∧ single_width 3 memoize0)
  ∧ motzkin_sequences 5 4 3 = Some [all_dots (Z.to_nat 4)]
  ∧ ∃ m', motzkinlengthk 5 4 3 memoize0 = Some (1, m').
Proof.
  assert (0 ≤ 4) as H1 by lia. assert (4 - 1 ≤ 3) as H2 by lia.
  assert (0 ≤ 3) as H3 by lia.
  assert (Z.to_nat 4 < 5)%nat as H4 by (simpl; lia).
  assert (single_width 3 memoize0) as H5 by constructor.
  split; [done|]. exact (only_dots_when_too_wide 4 3 5 memoize0 H1 H2 H3 H4 H5).
Defined.

(** * Every valid path is yielded *)

Lemma prefix_balance_whole l : prefix_balance l → (closes l ≤ opens l)%nat.
Proof. intros H. apply (H l []). by rewrite app_nil_r. Qed.

Lemma prefix_balance_snoc a c :
  prefix_balance a → (closes (a ++ [c]) ≤ opens (a ++ [c]))%nat →
  prefix_balance (a ++ [c]).
Proof.
  intros Ha Hc p q H. symmetry in H.
  apply app_eq_inv in H as [(k & -> & Hk)|(k & -> & _)].
  - destruct k as [|c' k].
    + rewrite app_nil_r. by apply prefix_balance_whole.
    + injection Hk as <- Hk. symmetry in Hk.
      apply app_eq_nil in Hk as [-> _]. done.
  - by apply (Ha p k).
Qed.

(** Reading on from a balanced prefix [a], a rest with more [)] than the
    depth allows meets, at its first surplus [)], the end of a balanced
    string. *)
Lemma first_surplus_close l a :
  prefix_balance a →
  (opens a + opens l < closes a + closes l)%nat →
  ∃ a' b, a ++ l = a' ++ ")"%char :: b ∧ prefix_balance a' ∧ total_balance a'.
Proof.
  revert a. induction l as [|c l IH]; intros a Ha Hlt.
  - apply prefix_balance_whole in Ha. marks.
  - pose proof (prefix_balance_whole a Ha) as Hwhole.
    destruct (decide (c = ")"%char)) as [->|Hc].
    + destruct (decide (opens a = closes a)) as [Heq|Hne].
      * by exists a, l.
      * destruct (IH (a ++ [")"%char])) as (a' & b & Heq & ? & ?).
        -- apply prefix_balance_snoc; [done|]. marks.
        -- marks.
        -- exists a', b. by rewrite <- Heq, <- app_assoc.
    + destruct (IH (a ++ [c])) as (a' & b & Heq & ? & ?).
      * apply prefix_balance_snoc; [done|].
        rewrite !occurrences_app, !occurrences_cons, !occurrences_nil.
        rewrite (decide_False (P := c = ")"%char)) by done.
        case_decide; lia.
      * revert Hlt. rewrite !occurrences_app, !occurrences_cons, !occurrences_nil.
        rewrite (decide_False (P := c = ")"%char)) by done.
        case_decide; lia.
      * exists a', b. by rewrite <- Heq, <- app_assoc.
Qed.

Lemma matching_close l :
  prefix_balance ("("%char :: l) → total_balance ("("%char :: l) →
  ∃ a b, l = a ++ ")"%char :: b ∧ prefix_balance a ∧ total_balance a.
Proof.
  unfold total_balance. intros _ Ht.
  apply (first_surplus_close l []); [apply prefix_balance_nil|]. marks.
Qed.

Lemma prefix_balance_dot_inv l :
  prefix_balance ("."%char :: l) → prefix_balance l.
Proof. intros H p q ->. specialize (H ("."%char :: p) q eq_refl). marks. Qed.

Lemma prefix_balance_after a b :
  prefix_balance ("("%char :: a ++ ")"%char :: b) → total_balance a →
  prefix_balance b.
Proof.
  unfold total_balance. intros H Ha p q ->.
  specialize (H ("("%char :: a ++ ")"%char :: p) q).
  rewrite <- app_comm_cons, <- app_assoc, <- app_comm_cons in H.
  specialize (H eq_refl). marks.
Qed.

Lemma minimum_width_infix w x l y :
  minimum_width w (x ++ l ++ y) → minimum_width w l.
Proof.
  intros H before inside after ->.
  apply (H (x ++ before) inside (after ++ y)).
  by rewrite <- !app_assoc, <- !app_comm_cons, <- !app_assoc, <- !app_comm_cons.
Qed.

Lemma string_of_symbols_dot l :
  String.string_of_list_ascii ("."%char :: l)
  = "." +:+ String.string_of_list_ascii l.
Proof. reflexivity. Qed.

Lemma string_of_symbols_pair a b :
  String.string_of_list_ascii ("("%char :: a ++ ")"%char :: b)
  = format_pair (String.string_of_list_ascii a) (String.string_of_list_ascii b).
Proof.
  apply symbols_inj. rewrite symbols_format_pair. unfold symbols.
  by rewrite !String.list_ascii_of_string_of_list_ascii.
Qed.

(** A string over the three symbols that keeps the three invariants is
    among the strings yielded for its length. *)
Lemma valid_in_paths w n :
  0 ≤ w →
  ∀ l, List.length l = n → Forall path_symbol l →
    prefix_balance l → total_balance l → minimum_width w l →
    String.string_of_list_ascii l ∈ paths (Z.of_nat n) w.
Proof.
  intros Hw. induction n as [n IH] using lt_wf_ind.
  intros l Hn Hsym Hp Ht Hm.
  destruct l as [|c l]; simpl in Hn.
  { subst n. rewrite paths_0. by apply list_elem_of_singleton. }
  apply Forall_cons in Hsym as [[->|[->| ->]] Hsym].
  - (* a leading dot *)
    apply elem_of_paths_step; [lia..|]. left.
    exists (String.string_of_list_ascii l). split; [done|].
    replace (Z.of_nat n - 1) with (Z.of_nat (List.length l)) by lia.
    apply (IH (List.length l)); [lia|done|done| | |].
    + by apply prefix_balance_dot_inv.
    + unfold total_balance in *. marks.
    + by apply (minimum_width_infix w ["."%char] l []); rewrite app_nil_r.
  - (* a leading open parenthesis: its partner closes a balanced inside *)
    destruct (matching_close l Hp Ht) as (a & b & -> & Hpa & Hta).
    rewrite length_app, length_cons in Hn.
    apply elem_of_paths_step; [lia..|]. right.
    exists (Z.of_nat (List.length a)), (String.string_of_list_ascii a),
      (String.string_of_list_ascii b).
    assert (w ≤ Z.of_nat (List.length a)) by by apply (Hm [] a b).
    split_and!; [done|lia|apply string_of_symbols_pair| |].
    + apply (IH (List.length a)); [lia|done| |done|done|].
      * apply Forall_app in Hsym. tauto.
      * by apply (minimum_width_infix w ["("%char] a (")"%char :: b)).
    + replace (Z.of_nat n - 2 - Z.of_nat (List.length a))
        with (Z.of_nat (List.length b)) by lia.
      apply (IH (List.length b)); [lia|done| | | |].
      * apply Forall_app in Hsym as [_ Hsym].
        by apply Forall_cons in Hsym as [_ ?].
      * by apply (prefix_balance_after a b).
      * unfold total_balance in *. marks.
      * apply (minimum_width_infix w ("("%char :: a ++ [")"%char]) b []).
        by rewrite app_nil_r, <- app_comm_cons, <- app_assoc.
  - (* a leading close parenthesis breaks the prefix balance *)
    specialize (Hp [")"%char] l eq_refl). marks.
Qed.

(** X2. The generator yields every Motzkin path: a string over [.], [(]
    and [)] that keeps prefix balance, total balance and the minimum width
    is among the strings [motzkin_sequences] yields for its length. *)
Theorem enumerate_complete s w fuel :
  0 ≤ w → Forall path_symbol (symbols s) → valid_path w s →
  (String.length s < fuel)%nat →
  ∃ out, motzkin_sequences fuel (Z.of_nat (String.length s)) w = Some out
         ∧ s ∈ out.
Proof.
  intros Hw Hsym (Hp & Ht & Hm) Hfuel.
  exists (paths (Z.of_nat (String.length s)) w).
  split; [apply motzkin_sequences_paths; lia|].
  pose proof (valid_in_paths w (String.length s) Hw (symbols s)
                (symbols_length s) Hsym Hp Ht Hm) as H.
  unfold symbols in H. by rewrite String.string_of_list_ascii_of_string in H.
Qed.

Lemma enumerate_complete_witness :
  (0 ≤ 3 ∧ Forall path_symbol (symbols ".(.(...))")
   ∧ valid_path 3 ".(.(...))" ∧ (String.length ".(.(...))" < 10)%nat)
  ∧ ∃ out, motzkin_sequences 10 (Z.of_nat (String.length ".(.(...))")) 3
           = Some out
           ∧ ".(.(...))" ∈ out.
Proof.
  assert (0 ≤ 3) as H1 by lia.
  assert (Forall path_symbol (symbols ".(.(...))")) as H2.
  { unfold path_symbol. repeat constructor; tauto. }
  pose proof docstring_works as H3.
  assert (String.length ".(.(...))" < 10)%nat as H4 by (simpl; lia).
  split; [done|]. exact (enumerate_complete ".(.(...))" 3 10 H1 H2 H3 H4).
Defined.

(** * Further properties of the counter's dictionary *)

Lemma motzkinlengthk_stored fuel len w m v m' :
  motzkinlengthk fuel len w m = Some (v, m') → m' !! len = Some v.
Proof.
  destruct fuel as [|fuel]; [done|]. intros H.
  destruct (m !! len) as [cached|] eqn:Hlook.
  - rewrite (motzkinlengthk_hit _ _ _ _ _ Hlook) in H. by injection H as <- <-.
  - rewrite motzkinlengthk_miss in H by done.
    destruct (motzkinlengthk fuel (len - 1) w m) as [[s1 m1]|]; [|done].
    simpl in H.
    destruct (count_loop _ len _ 0 m1) as [[sc m2]|]; [|done].
    simpl in H. injection H as <- <-. apply lookup_insert_eq.
Qed.

(** X5. A call that returns leaves every earlier entry of the dictionary as
    it was and stores its result under [length]; from then on, whatever
    entries later calls add, a call for that length returns the stored value
    and changes nothing, whatever its width. *)
Theorem memo_entry_stable fuel len w m v m' :
  motzkinlengthk fuel len w m = Some (v, m') →
  m ⊆ m' ∧ m' !! len = Some v
  ∧ ∀ later w' fuel', m' ⊆ later →
      motzkinlengthk (S fuel') len w' later = Some (v, later).
Proof.
  intros H. split_and!.
  - by eapply motzkinlengthk_grows.
  - by eapply motzkinlengthk_stored.
  - intros later w' fuel' Hlater. apply motzkinlengthk_hit.
    eapply lookup_weaken; [|done]. by eapply motzkinlengthk_stored.
Qed.

Lemma memo_entry_stable_witness :
  motzkinlengthk 3 2 0 memoize0 = Some (2, <[2:=2]> (<[1:=1]> memoize0))
  ∧ memoize0 ⊆ <[2:=2]> (<[1:=1]> memoize0)
  ∧ <[2:=2]> (<[1:=1]> memoize0) !! 2 = Some 2
  ∧ ∀ later w' fuel', <[2:=2]> (<[1:=1]> memoize0) ⊆ later →
      motzkinlengthk (S fuel') 2 w' later = Some (2, later).
Proof.
  assert (motzkinlengthk 3 2 0 memoize0
          = Some (2, <[2:=2]> (<[1:=1]> memoize0))) as H
    by (vm_compute; reflexivity).
  split; [done|]. exact (memo_entry_stable 3 2 0 memoize0 2 _ H).
Defined.

(** * The keys of the dictionary *)

(** A property of the dictionary that the recursive calls keep, on the
    lengths in [A], is kept by the loop. *)
Lemma count_loop_keeps (I : gmap Z Z → Prop) (A : Z → Prop)
    rec len inners acc m sc m' :
  (∀ l m v m', A l → I m → rec l m = Some (v, m') → I m') →
  (∀ i, i ∈ inners → A i ∧ A (len - 2 - i)) →
  I m → count_loop rec len inners acc m = Some (sc, m') → I m'.
Proof.
  intros Hrec. revert acc m.
  induction inners as [|i inners IH]; intros acc m Hin Hm H.
  - simpl in H. by injection H as <- <-.
  - rewrite count_loop_cons in H.
    destruct (Hin i) as [Hi Hi']; [by left|].
    destruct (rec i m) as [[a m1]|] eqn:Ha; [|done]. simpl in H.
    destruct (rec (len - 2 - i) m1) as [[b m2]|] eqn:Hb; [|done]. simpl in H.
    pose proof (Hrec _ _ _ _ Hi Hm Ha) as Hm1.
    pose proof (Hrec _ _ _ _ Hi' Hm1 Hb) as Hm2.
    apply (IH (acc + a * b) m2); [|done..]. intros j Hj. apply Hin. by right.
Qed.

(** The same for calls that are known to return. *)
Lemma count_loop_returns (I : gmap Z Z → Prop) (A : Z → Prop)
    rec len inners acc m :
  (∀ l m, A l → I m → ∃ v m', rec l m = Some (v, m') ∧ I m') →
  (∀ i, i ∈ inners → A i ∧ A (len - 2 - i)) →
  I m → ∃ sc m', count_loop rec len inners acc m = Some (sc, m') ∧ I m'.
Proof.
  intros Hrec. revert acc m.
  induction inners as [|i inners IH]; intros acc m Hin Hm.
  - by exists acc, m.
  - rewrite count_loop_cons.
    destruct (Hin i) as [Hi Hi']; [by left|].
    destruct (Hrec i m Hi Hm) as (a & m1 & -> & Hm1). simpl.
    destruct (Hrec _ m1 Hi' Hm1) as (b & m2 & -> & Hm2). simpl.
    apply IH; [|done]. intros j Hj. apply Hin. by right.
Qed.

Lemma keys_upto_nonneg top m : keys_upto top m → cache_sat (λ k _, 0 ≤ k) m.
Proof. intros H k v Hk. destruct (H k) as [Hin _]. apply Hin. by exists v. Qed.

Lemma keys_upto_insert top m v :
  0 ≤ top → keys_upto (top - 1) m → keys_upto top (<[top:=v]> m).
Proof.
  intros Htop H k. rewrite lookup_insert_is_Some, (H k).
  destruct (decide (top = k)) as [->|]; [split; [lia|by left]|].
  split; [intros [?|[_ ?]]; lia|intros ?; right; split; [done|lia]].
Qed.

Lemma keys_upto_init : keys_upto 0 memoize0.
Proof.
  intros k. unfold memoize0. split.
  - intros [v [<- _]%lookup_singleton_Some]. lia.
  - intros ?. replace k with 0 by lia. by exists 1.
Qed.

(** A call that returns extends the keys [0..top] to [0..max top length]. *)
Lemma motzkinlengthk_keys fuel len w m top v m' :
  0 ≤ top → keys_upto top m →
  motzkinlengthk fuel len w m = Some (v, m') →
  keys_upto (top `max` len) m'.
Proof.
  revert len m top v m'.
  induction fuel as [|fuel IH]; intros len m top v m' Htop Hm H; [done|].
  destruct (m !! len) as [cached|] eqn:Hlook.
  - rewrite (motzkinlengthk_hit _ _ _ _ _ Hlook) in H. injection H as <- <-.
    assert (0 ≤ len ≤ top) by (apply Hm; by exists cached).
    by rewrite Z.max_l by lia.
  - destruct (decide (len < 0)) as [Hneg|Hnn].
    { rewrite motzkinlengthk_negative in H;
        [done|by eapply keys_upto_nonneg|done]. }
    assert (top < len) as Hlt.
    { destruct (decide (top < len)); [done|].
      assert (is_Some (m !! len)) as [? Hsome] by (apply Hm; lia).
      by rewrite Hsome in Hlook. }
    rewrite motzkinlengthk_miss in H by done.
    destruct (motzkinlengthk fuel (len - 1) w m) as [[s1 m1]|] eqn:H1;
      [|done]. simpl in H.
    destruct (count_loop _ len _ 0 m1) as [[sc m2]|] eqn:H2; [|done].
    simpl in H. injection H as <- <-.
    pose proof (IH _ _ _ _ _ Htop Hm H1) as Hm1.
    rewrite Z.max_r in Hm1 by lia. rewrite Z.max_r by lia.
    apply keys_upto_insert; [lia|].
    destruct (decide (w < 0)) as [Hw|Hw].
    { rewrite range_cons, count_loop_cons in H2 by lia.
      rewrite motzkinlengthk_negative in H2;
        [done|by eapply keys_upto_nonneg|done]. }
    apply (count_loop_keeps (keys_upto (len - 1)) (λ l, 0 ≤ l ≤ len - 2)
             (λ l m, motzkinlengthk fuel l w m) len (range w (len - 1))
             0 m1 sc m2); [| |done|done].
    + intros l m0 v0 m0' Hl Hm0 Hrun.
      assert (0 ≤ len - 1) as Hpos by lia.
      pose proof (IH l m0 (len - 1) v0 m0' Hpos Hm0 Hrun) as Hm0'.
      by rewrite Z.max_l in Hm0' by lia.
    + intros i [??]%range_elem. lia.
Qed.

Lemma any_width_keys m : any_width m → ∃ top, 0 ≤ top ∧ keys_upto top m.
Proof.
  induction 1 as [|m fuel len w v m' _ (top & Htop & IH) _ Hrun].
  - exists 0. split; [done|apply keys_upto_init].
  - exists (top `max` len). split; [lia|]. by eapply motzkinlengthk_keys.
Qed.

(** X6. In every state of the process the keys of the dictionary are
    exactly the lengths [0..top] for some [top]: a call that returns adds
    the missing lengths up to its own and no other key. *)
Theorem dictionary_keys_are_a_prefix fuel len w m v m' :
  any_width m →
  motzkinlengthk fuel len w m = Some (v, m') →
  ∃ top, 0 ≤ top ∧ keys_upto top m ∧ keys_upto (top `max` len) m'.
Proof.
  intros Hm Hrun. destruct (any_width_keys m Hm) as (top & Htop & Hkeys).
  exists top. split_and!; [done..|]. by eapply motzkinlengthk_keys.
Qed.

Lemma dictionary_keys_are_a_prefix_witness :
  (any_width memoize0
   ∧ motzkinlengthk 3 2 0 memoize0 = Some (2, <[2:=2]> (<[1:=1]> memoize0)))
  ∧ ∃ top, 0 ≤ top ∧ keys_upto top memoize0
           ∧ keys_upto (top `max` 2) (<[2:=2]> (<[1:=1]> memoize0)).
Proof.
  assert (any_width memoize0) as H1 by constructor.
  assert (motzkinlengthk 3 2 0 memoize0
          = Some (2, <[2:=2]> (<[1:=1]> memoize0))) as H2
    by (vm_compute; reflexivity).
  split; [done|].
  exact (dictionary_keys_are_a_prefix 3 2 0 memoize0 2 _ H1 H2).
Defined.

(** * The depth of the call stack *)

Lemma motzkinlengthk_shallow fuel len w :
  0 ≤ len → (fuel ≤ Z.to_nat len)%nat →
  motzkinlengthk fuel len w memoize0 = None.
Proof.
  revert len. induction fuel as [|fuel IH]; intros len Hlen Hfuel; [done|].
  rewrite motzkinlengthk_miss by (apply lookup_singleton_None; lia).
  by rewrite IH by lia.
Qed.

(** With the keys [0..top] in the dictionary, a call needs a stack deep
    enough for the lengths above [top] only. *)
Lemma motzkinlengthk_fill fuel len w m top :
  0 ≤ w → 0 ≤ len → 0 ≤ top → keys_upto top m →
  (Z.to_nat (len - top) < fuel)%nat →
  ∃ v m', motzkinlengthk fuel len w m = Some (v, m')
          ∧ keys_upto (top `max` len) m'.
Proof.
  intros Hw. revert len m top.
  induction fuel as [|fuel IH]; intros len m top Hlen Htop Hm Hfuel; [lia|].
  destruct (m !! len) as [cached|] eqn:Hlook.
  - rewrite (motzkinlengthk_hit _ _ _ _ _ Hlook). exists cached, m.
    split; [done|].
    assert (0 ≤ len ≤ top) by (apply Hm; by exists cached).
    by rewrite Z.max_l by lia.
  - assert (top < len) as Hlt.
    { destruct (decide (top < len)); [done|].
      assert (is_Some (m !! len)) as [? Hsome] by (apply Hm; lia).
      by rewrite Hsome in Hlook. }
    rewrite motzkinlengthk_miss by done.
    destruct (IH (len - 1) m top) as (s1 & m1 & -> & Hm1); [lia..|done|lia|].
    rewrite Z.max_r in Hm1 by lia. simpl.
    destruct (count_loop_returns (keys_upto (len - 1)) (λ l, 0 ≤ l ≤ len - 2)
                (λ l m, motzkinlengthk fuel l w m) len (range w (len - 1))
                0 m1) as (sc & m2 & -> & Hm2); [| |done|].
    + intros l m0 Hl Hm0.
      destruct (IH l m0 (len - 1)) as (v0 & m0' & Hrun & Hm0');
        [lia..|done|lia|].
      rewrite Z.max_l in Hm0' by lia. by exists v0, m0'.
    + intros i [??]%range_elem. lia.
    + simpl. eexists _, _. split; [done|].
      rewrite Z.max_r by lia. apply keys_upto_insert; [lia|done].
Qed.

(** X7. As the first call of a process, and for arguments that are not
    negative, the counter returns exactly when the call stack has room for
    more than [length] nested calls of the function: with less it ends in
    [RecursionError]. *)
Theorem stack_depth_of_a_first_call fuel len w :
  0 ≤ len → 0 ≤ w →
  is_Some (motzkinlengthk fuel len w memoize0) ↔ (Z.to_nat len < fuel)%nat.
Proof.
  intros Hlen Hw. destruct (decide (Z.to_nat len < fuel)%nat) as [Hfuel|Hfuel].
  - destruct (motzkinlengthk_total fuel len w memoize0)
      as (v & m' & -> & _); [done..|].
    split; [done|by eexists].
  - rewrite motzkinlengthk_shallow by lia.
    split; [by intros [? ?]|done].
Qed.

Lemma stack_depth_of_a_first_call_witness :
  (0 ≤ 4 ∧ 0 ≤ 1)
  ∧ (is_Some (motzkinlengthk 4 4 1 memoize0) ↔ (Z.to_nat 4 < 4)%nat).
Proof.
  assert (0 ≤ 4) as H1 by lia. assert (0 ≤ 1) as H2 by lia.
  split; [done|]. exact (stack_depth_of_a_first_call 4 4 1 H1 H2).
Defined.

(** X8. After a call for a length [reached] has returned, a call for a
    longer [length] needs room for [length - reached] nested calls beyond its
    own only, and a call for a length up to [reached] needs a stack of one
    call: a length too deep for a first call can be reached in steps. *)
Theorem stack_depth_after_a_call fuel0 reached w0 m v0 m0 fuel len w :
  any_width m →
  motzkinlengthk fuel0 reached w0 m = Some (v0, m0) →
  0 ≤ len → 0 ≤ w → (Z.to_nat (len - reached) < fuel)%nat →
  ∃ v m', motzkinlengthk fuel len w m0 = Some (v, m').
Proof.
  intros Hm Hrun0 Hlen Hw Hfuel.
  destruct (any_width_keys m Hm) as (top & Htop & Hkeys).
  pose proof (motzkinlengthk_keys _ _ _ _ _ _ _ Htop Hkeys Hrun0) as Hkeys0.
  destruct (motzkinlengthk_fill fuel len w m0 (top `max` reached))
    as (v & m' & Hrun & _); [lia..|done|lia|].
  by exists v, m'.
Qed.

Lemma stack_depth_after_a_call_witness :
  (any_width memoize0
   ∧ motzkinlengthk 3 2 0 memoize0 = Some (2, <[2:=2]> (<[1:=1]> memoize0))
   ∧ 0 ≤ 3 ∧ 0 ≤ 0 ∧ (Z.to_nat (3 - 2) < 2)%nat)
  ∧ ∃ v m', motzkinlengthk 2 3 0 (<[2:=2]> (<[1:=1]> memoize0)) = Some (v, m').
Proof.
  assert (any_width memoize0) as H1 by constructor.
  assert (motzkinlengthk 3 2 0 memoize0
          = Some (2, <[2:=2]> (<[1:=1]> memoize0))) as H2
    by (vm_compute; reflexivity).
  assert (0 ≤ 3) as H3 by lia. assert (0 ≤ 0) as H4 by lia.
  assert (Z.to_nat (3 - 2) < 2)%nat as H5 by (simpl; lia).
  split; [done|].
  exact (stack_depth_after_a_call 3 2 0 memoize0 2 _ 2 3 0 H1 H2 H3 H4 H5).
Defined.

(** * A dictionary passed as third argument *)

Lemma motzkinlengthk_with_miss fuel len w memoize shared :
  memoize !! len = None →
  motzkinlengthk_with (S fuel) len w memoize shared
  = '(sequence1shorter, m1) ← motzkinlengthk fuel (len - 1) w shared;
    '(sequencecount, m2) ←
      count_loop (λ l m, motzkinlengthk fuel l w m) len (range w (len - 1)) 0 m1;
    Some (sequence1shorter + sequencecount,
          <[ len := sequence1shorter + sequencecount ]> memoize, m2).
Proof.
  intros H. simpl. rewrite H. replace (len - 2 + 1) with (len - 1) by lia.
  destruct (motzkinlengthk fuel (len - 1) w shared) as [[s1 m1]|]; [|done].
  simpl. destruct (count_loop _ len _ 0 m1) as [[sc m2]|]; [|done]. simpl.
  by rewrite lookup_insert_eq.
Qed.

(** X9. Called with a dictionary of the caller's own that has no entry for
    [length >= 1], in a process that has used this width only, the counter
    returns the number of paths and stores it in the caller's dictionary
    only: the shared dictionary is filled by the recursive calls, but gets
    no entry for [length] itself. *)
Theorem explicit_dictionary fuel len w memoize shared :
  1 ≤ len → 0 ≤ w → (Z.to_nat len < fuel)%nat →
  single_width w shared → memoize !! len = None →
  ∃ shared',
    motzkinlengthk_with fuel len w memoize shared
    = Some (Z.of_nat (List.length (paths len w)),
            <[ len := Z.of_nat (List.length (paths len w)) ]> memoize,
            shared')
    ∧ single_width w shared' ∧ shared' !! len = shared !! len.
Proof.
  intros Hlen Hw Hfuel Hshared Hlook.
  destruct fuel as [|fuel]; [lia|].
  rewrite motzkinlengthk_with_miss by done.
  destruct (motzkinlengthk_exact fuel (len - 1) w shared)
    as (m1 & Hrun1 & Hm1); [lia..|done|].
  rewrite Hrun1. simpl.
  destruct (count_loop_returns (single_width w) (λ l, 0 ≤ l ≤ len - 2)
              (λ l m, motzkinlengthk fuel l w m) len (range w (len - 1))
              0 m1) as (sc & m2 & Hloop & Hm2); [| |done|].
  { intros l m0 Hl Hm0.
    destruct (motzkinlengthk_exact fuel l w m0) as (m0' & ? & ?); [lia..|done|].
    by eexists _, m0'. }
  { intros i [??]%range_elem. lia. }
  rewrite Hloop. simpl.
  (* the value *)
  destruct (single_width_exact w m1 Hw Hm1) as [Hsat1 _].
  destruct (count_loop_sat (exact_entry w) _ _ _ _ _ _ _
              (motzkinlengthk_sat w (exact_entry w)
                 (λ l s t, exact_entry_step w l s t Hw) fuel) Hsat1 Hloop)
    as (_ & terms & Hterms & ->).
  rewrite (exact_entry_terms _ _ _ _ Hterms), Z.add_0_l.
  rewrite <- paths_count_step by lia.
  exists m2. split_and!; [done..|].
  (* the shared dictionary *)
  destruct (shared !! len) as [x|] eqn:Hx.
  - eapply lookup_weaken; [done|].
    etrans; [by eapply motzkinlengthk_grows|].
    exact (count_loop_grows _ _ _ _ _ _ _
             (λ l m v m', motzkinlengthk_grows fuel l w m v m') Hloop).
  - destruct (any_width_keys shared) as (top & Htop & Hkeys);
      [by eapply single_width_any|].
    assert (top < len) as Hlt.
    { destruct (decide (top < len)); [done|].
      assert (is_Some (shared !! len)) as [? Hsome] by (apply Hkeys; lia).
      by rewrite Hsome in Hx. }
    pose proof (motzkinlengthk_keys _ _ _ _ _ _ _ Htop Hkeys Hrun1) as Hk1.
    rewrite Z.max_r in Hk1 by lia.
    assert (keys_upto (len - 1) m2) as Hk2.
    { apply (count_loop_keeps (keys_upto (len - 1)) (λ l, 0 ≤ l ≤ len - 2)
               (λ l m, motzkinlengthk fuel l w m) len (range w (len - 1))
               0 m1 (0 + foldr Z.add 0 terms) m2); [| |done|done].
      - intros l m0 v0 m0' Hl Hm0 Hrun.
        assert (0 ≤ len - 1) as Hpos by lia.
        pose proof (motzkinlengthk_keys _ _ _ _ _ _ _ Hpos Hm0 Hrun) as Hm0'.
        by rewrite Z.max_l in Hm0' by lia.
      - intros i [??]%range_elem. lia. }
    destruct (m2 !! len) as [y|] eqn:Hy; [|done].
    assert (0 ≤ len ≤ len - 1) by (apply Hk2; by exists y). lia.
Qed.

Lemma explicit_dictionary_witness :
  (1 ≤ 5 ∧ 0 ≤ 3 ∧ (Z.to_nat 5 < 6)%nat ∧ single_width 3 memoize0
   ∧ (∅ : gmap Z Z) !! 5 = None)
  ∧ ∃ shared',
      motzkinlengthk_with 6 5 3 ∅ memoize0
      = Some (Z.of_nat (List.length (paths 5 3)),
              <[ 5 := Z.of_nat (List.length (paths 5 3)) ]> ∅,
              shared')
      ∧ single_width 3 shared' ∧ shared' !! 5 = memoize0 !! 5.
Proof.
  assert (1 ≤ 5) as H1 by lia. assert (0 ≤ 3) as H2 by lia.
  assert (Z.to_nat 5 < 6)%nat as H3 by (simpl; lia).
  assert (single_width 3 memoize0) as H4 by constructor.
  assert ((∅ : gmap Z Z) !! 5 = None) as H5 by reflexivity.
  split; [done|]. exact (explicit_dictionary 6 5 3 ∅ memoize0 H1 H2 H3 H4 H5).
Defined.

(** X10. The base case lives in the dictionary: called for a length of 0
    (or less) with a dictionary of the caller's own that has no entry for
    it, an empty one for instance, the counter recurses on negative lengths
    and never returns, whatever the depth of the stack. *)
Theorem explicit_dictionary_without_base fuel len w memoize shared :
  len ≤ 0 → memoize !! len = None → any_width shared →
  motzkinlengthk_with fuel len w memoize shared = None.
Proof.
  intros Hlen Hlook Hshared. destruct fuel as [|fuel]; [done|].
  rewrite motzkinlengthk_with_miss by done.
  destruct (any_width_keys shared Hshared) as (top & _ & Hkeys).
  rewrite motzkinlengthk_negative;
    [done|by eapply keys_upto_nonneg|lia].
Qed.

Lemma explicit_dictionary_without_base_witness :
  (0 ≤ 0 ∧ (∅ : gmap Z Z) !! 0 = None ∧ any_width memoize0)
  ∧ motzkinlengthk_with 1000 0 3 ∅ memoize0 = None.
Proof.
  assert (0 ≤ 0) as H1 by lia.
  assert ((∅ : gmap Z Z) !! 0 = None) as H2 by reflexivity.
  assert (any_width memoize0) as H3 by constructor.
  split; [done|].
  exact (explicit_dictionary_without_base 1000 0 3 ∅ memoize0 H1 H2 H3).
Defined.

(** * Generator objects in a heap *)

Lemma pair_block_cons inside insides afters :
  pair_block (inside :: insides) afters
  = ((format_pair inside) <$> afters) ++ pair_block insides afters.
Proof.
  unfold pair_block. rewrite bind_cons.
  assert ((afters ≫= λ after, [format_pair inside after])
          = (format_pair inside) <$> afters) as ->; [|done].
  induction afters as [|after afters IH]; [done|].
  by rewrite bind_cons, fmap_cons, IH.
Qed.

Lemma next_inside_spec len w inners insides afters :
  match next_inside len w inners insides afters with
  | None => pair_block insides afters = []
  | Some (s, fr) =>
      ∃ inside insides' afters',
        fr = AtPair len w inners inside insides' afters afters'
        ∧ pair_block insides afters
          = s :: ((format_pair inside) <$> afters') ++ pair_block insides' afters
  end.
Proof.
  induction insides as [|inside insides IH]; [done|].
  rewrite pair_block_cons. destruct afters as [|after afters].
  - simpl. exact IH.
  - simpl. by exists inside, insides, afters.
Qed.

Lemma next_inner_cons rec len w i inners :
  next_inner rec len w (i :: inners)
  = insides ← rec i;
    afters ← rec (len - 2 - i);
    match next_inside len w inners insides afters with
    | Some r => Some (Some r)
    | None => next_inner rec len w inners
    end.
Proof. reflexivity. Qed.

Lemma inners_part_cons w len i inners :
  inners_part w len (i :: inners)
  = pair_block (paths i w) (paths (len - 2 - i) w) ++ inners_part w len inners.
Proof. reflexivity. Qed.

Lemma next_inner_spec rec w len inners :
  (∀ i, i ∈ inners →
     rec i = Some (paths i w) ∧ rec (len - 2 - i) = Some (paths (len - 2 - i) w)) →
  ∃ r, next_inner rec len w inners = Some r
       ∧ loop_result w len inners r (inners_part w len inners).
Proof.
  induction inners as [|i inners IH]; intros Hrec.
  - by exists None.
  - destruct (Hrec i) as [Hi Hi']; [by left|].
    rewrite next_inner_cons, inners_part_cons, Hi, Hi'. cbn [mbind option_bind].
    pose proof (next_inside_spec len w inners (paths i w)
                  (paths (len - 2 - i) w)) as Hin.
    destruct (next_inside len w inners (paths i w) (paths (len - 2 - i) w))
      as [[s fr]|].
    + destruct Hin as (inside & insides' & afters' & -> & Heq).
      eexists. split; [done|]. simpl.
      exists inners, inside, insides', (paths (len - 2 - i) w), afters'.
      split_and!; [done|by right|].
      rewrite Heq. unfold pair_rest. by rewrite <- app_comm_cons, <- app_assoc.
    + rewrite Hin, app_nil_l.
      destruct IH as (r & -> & Hr); [intros j Hj; apply Hrec; by right|].
      exists r. split; [done|].
      destruct r as [[s fr]|]; [|done].
      destruct Hr as (inners' & inside & insides & all & afters & -> & Hsub & ->).
      exists inners', inside, insides, all, afters.
      split_and!; [done| |done]. intros j Hj. right. by apply Hsub.
Qed.

Lemma next_pair_spec rec w len inners inside insides all afters :
  (∀ i, i ∈ inners →
     rec i = Some (paths i w) ∧ rec (len - 2 - i) = Some (paths (len - 2 - i) w)) →
  ∃ r, next_pair rec len w inners inside insides all afters = Some r
       ∧ loop_result w len inners r
           (pair_rest w len inners inside insides all afters).
Proof.
  intros Hrec. destruct afters as [|after afters].
  - unfold next_pair, pair_rest. rewrite fmap_nil, app_nil_l.
    pose proof (next_inside_spec len w inners insides all) as Hin.
    destruct (next_inside len w inners insides all) as [[s fr]|].
    + destruct Hin as (inside' & insides' & afters' & -> & Heq).
      eexists. split; [done|]. simpl.
      exists inners, inside', insides', all, afters'.
      split_and!; [done..|].
      rewrite Heq. unfold pair_rest. by rewrite <- app_comm_cons, <- app_assoc.
    + rewrite Hin, app_nil_l. by apply next_inner_spec.
  - eexists. split; [done|]. simpl.
    by exists inners, inside, insides, all, afters.
Qed.

Lemma owns_self w h id len fp rem : owns w h id len fp rem → id ∈ fp.
Proof. destruct 1; set_solver. Qed.

Lemma owns_dom w h id len fp rem :
  owns w h id len fp rem → ∀ l, l ∈ fp → is_Some (h !! l).
Proof.
  induction 1 as [| |? ? ? ? ? ? ? ? ? IH| |]; intros l Hl.
  all: try (apply elem_of_singleton in Hl as ->; by eexists).
  apply elem_of_union in Hl as [->%elem_of_singleton|Hl]; [by eexists|].
  by apply IH.
Qed.

(** [owns] reads the cells of the footprint only. *)
Lemma owns_frame w h h' id len fp rem :
  owns w h id len fp rem → (∀ l, l ∈ fp → h' !! l = h !! l) →
  owns w h' id len fp rem.
Proof.
  induction 1 as [| |id len child fp rem Hid Hlen Hfp Hchild IH| |];
    intros Hsame.
  - apply owns_created; [|done]. rewrite Hsame; [done|set_solver].
  - apply owns_empty. rewrite Hsame; [done|set_solver].
  - apply (owns_dot w h' id len child fp rem); [|done..|].
    + rewrite Hsame; [done|set_solver].
    + apply IH. intros l Hl. apply Hsame. set_solver.
  - apply owns_pair; [|done]. rewrite Hsame; [done|set_solver].
  - apply owns_finished. rewrite Hsame; [done|set_solver].
Qed.

Lemma suspend_owns w h id len inners0 r rem :
  (∀ i, i ∈ inners0 → 0 ≤ i ≤ len - 2) →
  loop_result w len inners0 r rem →
  ∃ h', suspend id h r = (head rem, h')
        ∧ owns w h' id len {[ id ]} (tail rem)
        ∧ ∀ l, l ≠ id → h' !! l = h !! l.
Proof.
  intros Hin Hr. destruct r as [[s fr]|]; simpl in *.
  - destruct Hr as (inners & inside & insides & all & afters & -> & Hsub & ->).
    eexists. split_and!; [done| |].
    + simpl. apply owns_pair; [apply lookup_insert_eq|].
      intros i Hi. by apply Hin, Hsub.
    + intros l Hl. by rewrite lookup_insert_ne.
  - subst rem. eexists. split_and!; [done| |].
    + apply owns_finished, lookup_insert_eq.
    + intros l Hl. by rewrite lookup_insert_ne.
Qed.

Lemma list_rec_paths fuel w len (inners : list Z) :
  0 ≤ w → (Z.to_nat len ≤ fuel)%nat → (∀ i, i ∈ inners → 0 ≤ i ≤ len - 2) →
  ∀ i, i ∈ inners →
    motzkin_sequences fuel i w = Some (paths i w)
    ∧ motzkin_sequences fuel (len - 2 - i) w = Some (paths (len - 2 - i) w).
Proof.
  intros Hw Hfuel Hin i Hi. specialize (Hin i Hi).
  split; apply motzkin_sequences_paths; lia.
Qed.

(** One step of the first loop, given what resuming the child does. *)
Lemma first_loop_owns w fuel rec_next id len child h fpc remc x :
  0 ≤ w → 1 ≤ len → (Z.to_nat len ≤ fuel)%nat →
  h !! id = Some x → id ∉ fpc → owns w h child (len - 1) fpc remc →
  (∃ h2 fpc',
     rec_next child h = Some (head remc, h2)
     ∧ owns w h2 child (len - 1) fpc' (tail remc)
     ∧ (∀ l, l ∈ fpc' → l ∈ fpc ∨ h !! l = None)
     ∧ (∀ l, l ∉ fpc → is_Some (h !! l) → h2 !! l = h !! l)) →
  ∃ h' fp',
    first_loop rec_next (λ l, motzkin_sequences fuel l w) id len w child h
    = Some (head (((λ seq, "." +:+ seq) <$> remc)
                  ++ inners_part w len (range w (len - 1))), h')
    ∧ owns w h' id len fp'
           (tail (((λ seq, "." +:+ seq) <$> remc)
                  ++ inners_part w len (range w (len - 1))))
    ∧ (∀ l, l ∈ fp' → l ∈ {[ id ]} ∪ fpc ∨ h !! l = None)
    ∧ (∀ l, l ∉ {[ id ]} ∪ fpc → is_Some (h !! l) → h' !! l = h !! l).
Proof.
  intros Hw Hlen Hfuel Hid Hnotin Hchild (h2 & fpc' & Hnext & Hchild' & Hnew & Hsame).
  unfold first_loop. rewrite Hnext. cbn [mbind option_bind].
  assert (id ∉ fpc') as Hnotin'.
  { intros [?|Hnone]%Hnew; [done|]. by rewrite Hid in Hnone. }
  assert (∀ l, l ∉ {[ id ]} ∪ fpc → is_Some (h !! l) →
               ∀ fr, <[ id := fr ]> h2 !! l = h !! l) as Hframe.
  { intros l Hl Hsome fr. rewrite lookup_insert_ne by set_solver.
    apply Hsame; [set_solver|done]. }
  destruct remc as [|s t]; cbn [head tail fmap list_fmap app].
  - (* the child is exhausted: on to the loop over the inside lengths *)
    replace (len - 2 + 1) with (len - 1) by lia.
    destruct (next_inner_spec (λ l, motzkin_sequences fuel l w) w len
                (range w (len - 1))) as (r & -> & Hr).
    { apply list_rec_paths; [done..|]. intros i [??]%range_elem. lia. }
    assert (∀ i, i ∈ range w (len - 1) → 0 ≤ i ≤ len - 2) as Hrange
      by (intros i [??]%range_elem; lia).
    destruct (suspend_owns w h2 id len (range w (len - 1)) r _ Hrange Hr)
      as (h' & Hsusp & Howns & Hothers).
    exists h', {[ id ]}. cbn [fmap option_fmap option_map]. rewrite Hsusp.
    split_and!; [done..| |].
    { intros l Hl. left. apply elem_of_union. by left. }
    intros l [Hl1 Hl2]%not_elem_of_union Hsome.
    rewrite Hothers by (by apply not_elem_of_singleton in Hl1).
    by apply Hsame.
  - (* the child yields [s] *)
    eexists _, ({[ id ]} ∪ fpc'). split_and!; [done| | |].
    + apply (owns_dot w _ id len child fpc' t);
        [apply lookup_insert_eq|done..|].
      apply (owns_frame w h2); [done|].
      intros l Hl. apply lookup_insert_ne. by intros ->.
    + intros l [->%elem_of_singleton|[?|?]%Hnew]%elem_of_union; set_solver.
    + intros l Hl Hsome. by apply Hframe.
Qed.

(** One call of [next]: the object yields the first of the strings it has
    still to yield and keeps the others; it writes to its own cells and to
    new ones only. *)
Lemma next_owns w fuel h id len fp rem :
  0 ≤ w → owns w h id len fp rem → (Z.to_nat len < fuel)%nat →
  ∃ h' fp',
    next fuel id h = Some (head rem, h')
    ∧ owns w h' id len fp' (tail rem)
    ∧ (∀ l, l ∈ fp' → l ∈ fp ∨ h !! l = None)
    ∧ (∀ l, l ∉ fp → is_Some (h !! l) → h' !! l = h !! l).
Proof.
  intros Hw. revert h id len fp rem.
  induction fuel as [|fuel IH]; intros h id len fp rem Howns Hfuel; [lia|].
  cbn [next].
  destruct Howns as [id len Hid Hlen|id Hid|id len child fpc remc Hid Hlen Hfp Hchild
                    |id len inners inside insides all afters Hid Hin|id len Hid];
    rewrite Hid; cbn [mbind option_bind].
  - (* not started *)
    destruct (decide (len = 0)) as [->|Hne].
    + rewrite paths_0. eexists _, {[ id ]}. split_and!; [done| |set_solver|].
      * apply owns_empty, lookup_insert_eq.
      * intros l Hl _. apply lookup_insert_ne. set_solver.
    + unfold call. set (child := fresh (dom h)).
      assert (h !! child = None) as Hfresh
        by apply not_elem_of_dom, is_fresh.
      assert (id ≠ child) as Hneq by (intros ->; by rewrite Hid in Hfresh).
      set (h1 := <[ child := Created (len - 1) w ]> h).
      assert (owns w h1 child (len - 1) {[ child ]} (paths (len - 1) w)) as Hc.
      { apply owns_created; [apply lookup_insert_eq|lia]. }
      destruct (first_loop_owns w fuel (next fuel) id len child h1 {[ child ]}
                  (paths (len - 1) w) (Created len w))
        as (h' & fp' & Hrun & Howns' & Hnew & Hsame);
        [done|lia|lia| |set_solver|done| |].
      { unfold h1. by rewrite lookup_insert_ne. }
      { apply (IH h1 child (len - 1)); [done|lia]. }
      rewrite paths_step by lia.
      exists h', fp'. split_and!; [done..| |].
      * intros l [[->%elem_of_singleton| ->%elem_of_singleton]%elem_of_union
                 |Hnone]%Hnew.
        -- left. set_solver.
        -- by right.
        -- right. unfold h1 in Hnone.
           by apply lookup_insert_None in Hnone as [? _].
      * intros l Hl Hsome.
        assert (l ≠ child) by (intros ->; rewrite Hfresh in Hsome;
                               by destruct Hsome).
        rewrite Hsame.
        -- unfold h1. by rewrite lookup_insert_ne.
        -- apply not_elem_of_union. split; [done|by apply not_elem_of_singleton].
        -- unfold h1. by rewrite lookup_insert_ne.
  - (* suspended at the empty string *)
    eexists _, {[ id ]}. split_and!; [done| |set_solver|].
    + apply owns_finished, lookup_insert_eq.
    + intros l Hl _. apply lookup_insert_ne. set_solver.
  - (* suspended in the first loop *)
    apply (first_loop_owns w fuel (next fuel) id len child h fpc remc
             (AtDot len w child)); [done|done|lia|done..|].
    apply (IH h child (len - 1)); [done|lia].
  - (* suspended in the nested loops *)
    destruct (next_pair_spec (λ l, motzkin_sequences fuel l w) w len
                inners inside insides all afters) as (r & -> & Hr).
    { apply list_rec_paths; [done|lia|done]. }
    destruct (suspend_owns w h id len inners r _ Hin Hr)
      as (h' & Hsusp & Howns & Hothers).
    exists h', {[ id ]}. cbn [fmap option_fmap option_map]. rewrite Hsusp.
    split_and!; [done..|by left|].
    intros l Hl _. apply Hothers. by apply not_elem_of_singleton in Hl.
  - (* finished *)
    exists h, {[ id ]}. split_and!; [done| |set_solver|done].
    by apply owns_finished.
Qed.

Lemma take_S_head_tail {A} n (l : list A) :
  option_list (head l) ++ take n (tail l) = take (S n) l.
Proof. by destruct l, n. Qed.

(** Two objects with disjoint footprints, resumed in any interleaving:
    each yields, in order, the strings it had to yield, as many as it was
    resumed for. *)
Lemma interleave_owns w fuel schedule a b len h fpa fpb rema remb :
  0 ≤ w → (Z.to_nat len < fuel)%nat →
  owns w h a len fpa rema → owns w h b len fpb remb → fpa ## fpb →
  ∃ h',
    interleave fuel schedule a b h
    = Some (take (List.length (filter (λ turn, turn = true) schedule)) rema,
            take (List.length (filter (λ turn, turn = false) schedule)) remb,
            h').
Proof.
  intros Hw Hfuel. revert h fpa fpb rema remb.
  induction schedule as [|turn schedule IH];
    intros h fpa fpb rema remb Ha Hb Hdisj.
  { exists h. by rewrite !take_0. }
  cbn [interleave]. destruct turn.
  - destruct (next_owns w fuel h a len fpa rema Hw Ha Hfuel)
      as (h1 & fpa' & -> & Ha' & Hnew & Hsame).
    cbn [mbind option_bind].
    assert (owns w h1 b len fpb remb) as Hb'.
    { apply (owns_frame w h); [done|]. intros l Hl.
      apply Hsame; [set_solver|exact (owns_dom _ _ _ _ _ _ Hb l Hl)]. }
    assert (fpa' ## fpb) as Hdisj'.
    { intros l [?|Hnone]%Hnew Hl; [set_solver|].
      destruct (owns_dom _ _ _ _ _ _ Hb l Hl) as [? Hsome].
      by rewrite Hsome in Hnone. }
    destruct (IH h1 fpa' fpb _ _ Ha' Hb' Hdisj') as (h' & ->).
    cbn [mbind option_bind]. exists h'.
    rewrite (filter_cons_True (λ turn, turn = true)) by done.
    rewrite (filter_cons_False (λ turn, turn = false)) by done.
    cbn [List.length]. by rewrite take_S_head_tail.
  - destruct (next_owns w fuel h b len fpb remb Hw Hb Hfuel)
      as (h1 & fpb' & -> & Hb' & Hnew & Hsame).
    cbn [mbind option_bind].
    assert (owns w h1 a len fpa rema) as Ha'.
    { apply (owns_frame w h); [done|]. intros l Hl.
      apply Hsame; [set_solver|exact (owns_dom _ _ _ _ _ _ Ha l Hl)]. }
    assert (fpa ## fpb') as Hdisj'.
    { intros l Hl [?|Hnone]%Hnew; [set_solver|].
      destruct (owns_dom _ _ _ _ _ _ Ha l Hl) as [? Hsome].
      by rewrite Hsome in Hnone. }
    destruct (IH h1 fpa fpb' _ _ Ha' Hb' Hdisj') as (h' & ->).
    cbn [mbind option_bind]. exists h'.
    rewrite (filter_cons_False (λ turn, turn = true)) by done.
    rewrite (filter_cons_True (λ turn, turn = false)) by done.
    cbn [List.length]. by rewrite take_S_head_tail.
Qed.

(** Resuming one object under two names is not independent: the heap is
    shared, and the second name goes on where the first stopped. *)
Example one_object_under_two_names :
  let '(a, h) := call 6 1 ∅ in
  (λ '(ya, yb, _), (ya, yb)) <$> interleave 7 [true; false; true; false] a a h
  = Some (["......"; "..(.)."], ["...(.)"; "..(..)"]).
Proof. vm_compute. reflexivity. Qed.

(** C9. For [length >= 0] and [minwidth >= 0], two invocations of
    [motzkin_sequences(length, minwidth)], in any heap, make two distinct
    generator objects, and however the calls of [next] on the two are
    interleaved, each yields the same strings in the same order: after
    [n] calls of [next] an object has yielded the first [n] strings of the
    sequence (all of them, once [n] reaches their number), whatever was
    done with the other. *)
Theorem generators_independent len w fuel h schedule :
  0 ≤ len → 0 ≤ w → (Z.to_nat len < fuel)%nat →
  ∃ out h',
    motzkin_sequences fuel len w = Some out
    ∧ (let '(a, h1) := call len w h in
       let '(b, h2) := call len w h1 in
       a ≠ b
       ∧ interleave fuel schedule a b h2
         = Some (take (List.length (filter (λ turn, turn = true) schedule)) out,
                 take (List.length (filter (λ turn, turn = false) schedule)) out,
                 h')).
Proof.
  intros Hlen Hw Hfuel. unfold call.
  set (a := fresh (dom h)). set (h1 := <[ a := Created len w ]> h).
  set (b := fresh (dom h1)). set (h2 := <[ b := Created len w ]> h1).
  assert (a ≠ b) as Hab.
  { intros Heq. pose proof (is_fresh (dom h1)) as Hfresh. fold b in Hfresh.
    rewrite <- Heq in Hfresh. apply Hfresh. unfold h1. set_solver. }
  assert (owns w h2 a len {[ a ]} (paths len w)) as Ha.
  { apply owns_created; [|done]. unfold h2, h1.
    rewrite lookup_insert_ne by done. apply lookup_insert_eq. }
  assert (owns w h2 b len {[ b ]} (paths len w)) as Hb.
  { apply owns_created; [|done]. apply lookup_insert_eq. }
  destruct (interleave_owns w fuel schedule a b len h2 {[ a ]} {[ b ]}
              (paths len w) (paths len w) Hw Hfuel Ha Hb) as (h' & Hrun);
    [set_solver|].
  exists (paths len w), h'. split; [by apply motzkin_sequences_paths|].
  by split.
Qed.

Lemma generators_independent_witness :
  (0 ≤ 5 ∧ 0 ≤ 3 ∧ (Z.to_nat 5 < 6)%nat)
  ∧ ∃ out h',
      motzkin_sequences 6 5 3 = Some out
      ∧ (let '(a, h1) := call 5 3 ∅ in
         let '(b, h2) := call 5 3 h1 in
         a ≠ b
         ∧ interleave 6 [true; false; false; true; true] a b h2
           = Some (take (List.length (filter (λ turn, turn = true)
                                         [true; false; false; true; true])) out,
                   take (List.length (filter (λ turn, turn = false)
                                         [true; false; false; true; true])) out,
                   h')).
Proof.
  assert (0 ≤ 5) as H1 by lia. assert (0 ≤ 3) as H2 by lia.
  assert (Z.to_nat 5 < 6)%nat as H3 by (simpl; lia).
  split; [done|].
  exact (generators_independent 5 3 6 ∅ [true; false; false; true; true]
           H1 H2 H3).
Defined.
